(** * plasma-engine-shared: [src/utils/common.py]

    A shallow embedding of the retry decorator, the TTL cache decorator,
    the environment reader, [deep_merge] and [chunk_list], followed by the
    properties proved about them.

    Conventions.
    - A Python call that may raise returns an [outcome]: [Return v] or
      [Raise e].
    - Code with side effects is written in state-passing style over an
      abstract world [W] (whatever the wrapped operation can read or
      change, the clock included).
    - The numbers given to the retry decorator come with their arithmetic
      as a parameter ([Retry.numbers]): [**] and [*] may round and may
      raise, as they do for a [float].  The timestamps of the cache are
      only subtracted and compared; they are read as rationals ([Qc]).
    - Library functions the module calls but does not define ([hash],
      [str], [str.lower], ...) are parameters of the definitions. *)

From Stdlib Require Import ZArith QArith Qcanon List String Lia.
From stdpp Require Import base decidable option list gmap strings pretty numbers.

Local Open Scope Z_scope.

(* ===================================================================== *)
(** * Part I: the embedding                                               *)
(* ===================================================================== *)

(** ** Python exceptions and outcomes *)
Module Py.

(** The built-in exception classes the module's behaviour depends on. *)
Inductive builtin_exc : Set :=
  | BaseException | Exception
  | KeyboardInterrupt | SystemExit | GeneratorExit | CancelledError
  | ValueError | TypeError | RuntimeError | OSError
  | ArithmeticError | OverflowError.

#[export] Instance builtin_exc_eq_dec : EqDecision builtin_exc.
Proof. solve_decision. Defined.

(** The direct base class of a built-in ([CancelledError] derives from
    [BaseException] since Python 3.8). *)
Definition builtin_base (c : builtin_exc) : option builtin_exc :=
  match c with
  | BaseException => None
  | Exception | KeyboardInterrupt | SystemExit | GeneratorExit
  | CancelledError => Some BaseException
  | ValueError | TypeError | RuntimeError | OSError
  | ArithmeticError => Some Exception
  | OverflowError => Some ArithmeticError
  end.

Fixpoint builtin_issubclass_upto (n : nat) (c d : builtin_exc) : bool :=
  if decide (c = d) then true
  else match n, builtin_base c with
       | S n', Some b => builtin_issubclass_upto n' b d
       | _, _ => false
       end.

Definition builtin_issubclass : builtin_exc -> builtin_exc -> bool :=
  builtin_issubclass_upto 3.

(** An exception class: a built-in, or [class name(base): pass]. *)
Inductive exc_class : Set :=
  | Builtin (b : builtin_exc)
  | UserClass (name : string) (base : exc_class).

#[export] Instance exc_class_eq_dec : EqDecision exc_class.
Proof. solve_decision. Defined.

Fixpoint issubclass (c d : exc_class) : bool :=
  match c with
  | Builtin b =>
      match d with
      | Builtin b' => builtin_issubclass b b'
      | UserClass _ _ => false
      end
  | UserClass _ base => bool_decide (c = d) || issubclass base d
  end.

(** An exception object: its class and its message. *)
Record exc : Set := mk_exc { exc_type : exc_class; exc_msg : string }.

#[export] Instance exc_eq_dec : EqDecision exc.
Proof. solve_decision. Defined.

Definition isinstance (e : exc) (c : exc_class) : bool :=
  issubclass (exc_type e) c.

(** [class PlasmaEngineError(Exception)] and its two subclasses. *)
Definition PlasmaEngineError : exc_class :=
  UserClass "PlasmaEngineError" (Builtin Exception).
Definition ValidationError : exc_class :=
  UserClass "ValidationError" PlasmaEngineError.
Definition ConfigurationError : exc_class :=
  UserClass "ConfigurationError" PlasmaEngineError.

(** The result of a call. *)
Inductive outcome (A : Type) : Type :=
  | Return (v : A)
  | Raise (e : exc).
Arguments Return {A} v.
Arguments Raise {A} e.

Definition is_Return {A} (o : outcome A) : bool :=
  match o with Return _ => true | Raise _ => false end.

(** [raise x] where [x] may be [None]: raising [None] is a [TypeError]. *)
Definition raise_object {A} (x : option exc) : outcome A :=
  match x with
  | Some e => Raise e
  | None => Raise (mk_exc (Builtin TypeError)
                     "exceptions must derive from BaseException")
  end.

(** [range(n)]. *)
Definition range (n : Z) : list Z := map Z.of_nat (seq 0 (Z.to_nat n)).

End Py.
Import Py.

(** ** [retry_async] *)
Module Retry.

(** The arithmetic of the numbers passed as [delay] and [backoff]:
    [pow x n] is [x ** n] and [mul x y] is [x * y].  Either may raise: for
    a [float], [x ** n] raises [OverflowError] when the result is out of
    range. *)
Record numbers (Num : Type) : Type := {
  pow : Num -> Z -> outcome Num;
  mul : Num -> Num -> outcome Num
}.
Arguments pow {Num} _ _ _.
Arguments mul {Num} _ _ _.

(** [delay * (backoff ** attempt)]. *)
Definition backoff_delay {Num : Type} (P : numbers Num) (delay backoff : Num)
    (attempt : Z) : outcome Num :=
  match pow P backoff attempt with
  | Return p => mul P delay p
  | Raise e => Raise e
  end.

(** Numbers computed exactly ([int], [fractions.Fraction]), for the
    exponents the wrapper uses ([n >= 0]): nothing is rounded and nothing
    raises. *)
Definition exact_numbers : numbers Qc :=
  {| pow := fun x n => Return (x ^ Z.to_nat n)%Qc;
     mul := fun x y => Return (x * y)%Qc |}.

(** What the wrapper does that the outside can observe, in order: one
    [Invoke] per [await func(...)] with what it gave, one [Sleep] per
    [await asyncio.sleep(...)] with the duration asked for. *)
Inductive event (Num A : Type) : Type :=
  | Invoke (o : outcome A)
  | Sleep (d : Num).
Arguments Invoke {Num A} o.
Arguments Sleep {Num A} d.

(** The outcomes of the invocations of a trace, in order. *)
Fixpoint invocations {Num A} (tr : list (event Num A)) : list (outcome A) :=
  match tr with
  | [] => []
  | Invoke o :: tr' => o :: invocations tr'
  | Sleep _ :: tr' => invocations tr'
  end.

(** The durations of the suspensions of a trace, in order. *)
Fixpoint sleeps {Num A} (tr : list (event Num A)) : list Num :=
  match tr with
  | [] => []
  | Invoke _ :: tr' => sleeps tr'
  | Sleep d :: tr' => d :: sleeps tr'
  end.

(** An outcome that [except Exception] catches. *)
Definition caught {A : Type} (o : outcome A) : bool :=
  match o with
  | Return _ => false
  | Raise e => isinstance e (Builtin Exception)
  end.

Section Wrapper.
Context {Num W A : Type}.
Variable P : numbers Num.
Variables (max_attempts : Z) (delay backoff : Num).
(** [func] is [await func(..)] for the fixed arguments of the call;
    [sleep d] is [await asyncio.sleep(d)]: what the world becomes while
    the task is suspended, or the exception the suspension ends with. *)
Variable func : W -> outcome A * W.
Variable sleep : Num -> W -> outcome unit * W.

(** The body of [for attempt in range(max_attempts)], over the attempts
    still to run.  The delay is computed and awaited inside the [except]
    block: an exception raised there leaves the wrapper. *)
Fixpoint attempt_loop (attempts : list Z) (last_exception : option exc)
    (w : W) : outcome A * W * list (event Num A) :=
  match attempts with
  | [] => (raise_object last_exception, w, [])
  | attempt :: rest =>
      let '(r, w1) := func w in
      match r with
      | Return v => (Return v, w1, [Invoke r])
      | Raise e =>
          if isinstance e (Builtin Exception) then
            let last_exception := Some e in
            if attempt =? max_attempts - 1 then
              (raise_object last_exception, w1, [Invoke r])
            else
              match backoff_delay P delay backoff attempt with
              | Raise e' => (Raise e', w1, [Invoke r])
              | Return d =>
                  let '(s, w2) := sleep d w1 in
                  match s with
                  | Raise e' => (Raise e', w2, [Invoke r; Sleep d])
                  | Return _ =>
                      let '(r', w', tr) :=
                        attempt_loop rest last_exception w2 in
                      (r', w', Invoke r :: Sleep d :: tr)
                  end
              end
          else (Raise e, w1, [Invoke r])
      end
  end.

(** [retry_async(max_attempts, delay, backoff)(func)(..)]. *)
Definition retry_async (w : W) : outcome A * W * list (event Num A) :=
  attempt_loop (range max_attempts) None w.

(** The world of the next invocation when the wrapper suspends after
    attempt number [attempt], made in [w]: none when the delay cannot be
    computed or the suspension raises. *)
Definition next_world (attempt : nat) (w : W) : option W :=
  match backoff_delay P delay backoff (Z.of_nat attempt) with
  | Raise _ => None
  | Return d =>
      match sleep d (func w).2 with
      | (Return _, w2) => Some w2
      | (Raise _, _) => None
      end
  end.

(** The world of the invocation made [j] attempts after attempt number
    [start], made in [w], when the wrapper suspended after each attempt in
    between. *)
Fixpoint world_from (start : nat) (w : W) (j : nat) : option W :=
  match j with
  | O => Some w
  | S j' =>
      match next_world start w with
      | Some w1 => world_from (S start) w1 j'
      | None => None
      end
  end.

(** The world in which invocation [i] (from 0) takes place when every
    earlier one was followed by a suspension that was computed and
    completed. *)
Definition world_at (w : W) (i : nat) : option W := world_from 0 w i.

End Wrapper.
End Retry.

(** ** [cache_result] *)
Module Cache.

(** The Python built-ins the wrapper calls: the rendering
    [str(args) + str(sorted(kwargs.items()))] of a call's arguments,
    [hash] on strings, and [time.time()] read off the world. *)
Record builtins (Args W : Type) : Type := {
  str_of_call : Args -> string;
  hash : string -> Z;
  time_time : W -> Qc
}.
Arguments str_of_call {Args W} _ _.
Arguments hash {Args W} _ _.
Arguments time_time {Args W} _ _.

(** The decorated function: its [__name__] and what calling it does. *)
Record function (Args Res W : Type) : Type := {
  fn_name : string;
  fn_call : Args -> W -> outcome Res * W
}.
Arguments fn_name {Args Res W} _.
Arguments fn_call {Args Res W} _ _ _.

(** The state a call of the wrapper works on: the closure's [cache]
    dictionary, the world, and a count of the invocations of the decorated
    function so far (the count is a ghost: the code does not keep it). *)
Record state (Res W : Type) : Type := {
  cache : gmap string (Res * Qc);
  world : W;
  calls : nat
}.
Arguments Build_state {Res W} _ _ _.
Arguments cache {Res W} _.
Arguments world {Res W} _.
Arguments calls {Res W} _.

Section Wrapper.
Context {Args Res W : Type}.
Variable B : builtins Args W.
Variable ttl_seconds : Qc.
Variable func : function Args Res W.

(** [f"{func.__name__}:{hash(str(args) + str(sorted(kwargs.items())))}"]. *)
Definition cache_key (a : Args) : string :=
  fn_name func +:+ ":" +:+ pretty (hash B (str_of_call B a)).

(** "Execute function and cache result", on the dictionary [c] left by the
    lookup. *)
Definition execute (a : Args) (c : gmap string (Res * Qc)) (st : state Res W)
    : outcome Res * state Res W :=
  let '(r, w1) := fn_call func a (world st) in
  match r with
  | Return result =>
      (Return result,
       Build_state (<[cache_key a := (result, time_time B w1)]> c) w1
                   (S (calls st)))
  | Raise e => (Raise e, Build_state c w1 (S (calls st)))
  end.

(** [cache_result(ttl_seconds)(func)(..)]. *)
Definition wrapper (a : Args) (st : state Res W) : outcome Res * state Res W :=
  match cache st !! cache_key a with
  | Some (result, timestamp) =>
      if decide (time_time B (world st) - timestamp < ttl_seconds)%Qc
      then (Return result, st)
      else execute a (delete (cache_key a) (cache st)) st
  | None => execute a (cache st) st
  end.

(** "Cached result exists and is still valid". *)
Definition live (a : Args) (st : state Res W) : Prop :=
  exists result timestamp,
    cache st !! cache_key a = Some (result, timestamp) /\
    (time_time B (world st) - timestamp < ttl_seconds)%Qc.

(** A sequence of calls; before each call the world moves on as the
    caller says (time passes, other code runs).  Each call is recorded
    with the state it found, its arguments, its outcome and the state it
    left. *)
Fixpoint run (steps : list ((W -> W) * Args)) (st : state Res W)
    : list (state Res W * Args * outcome Res * state Res W) :=
  match steps with
  | [] => []
  | (advance, a) :: rest =>
      let st0 := Build_state (cache st) (advance (world st)) (calls st) in
      let '(o, st1) := wrapper a st0 in
      (st0, a, o, st1) :: run rest st1
  end.

End Wrapper.
End Cache.

(** ** [safe_cast] and [get_env_var] *)
Module Env.

(** The values [get_env_var] can return; [VOther] stands for whatever a
    caller-supplied [cast_type] builds. *)
Inductive value : Type :=
  | VNone
  | VStr (s : string)
  | VBool (b : bool)
  | VList (items : list string)
  | VOther (repr : string).

(** [cast_type]: [bool], [list], or any other callable. *)
Inductive cast : Type :=
  | CastBool
  | CastList
  | CastType (target_type : string -> outcome value).

(** The string methods the function calls. *)
Record str_methods : Type := {
  lower : string -> string;
  split : string -> string -> list string;
  strip : string -> string
}.

Definition of_default (default : option string) : value :=
  match default with Some s => VStr s | None => VNone end.

Definition safe_cast (value0 : string) (target_type : string -> outcome value)
    (default : value) : outcome value :=
  match target_type value0 with
  | Return v => Return v
  | Raise e =>
      if isinstance e (Builtin ValueError) || isinstance e (Builtin TypeError)
      then Return default
      else Raise e
  end.

(** [os.getenv(key, default)]. *)
Definition os_getenv (environ : gmap string string) (key : string)
    (default : option string) : option string :=
  match environ !! key with
  | Some v => Some v
  | None => default
  end.

Definition get_env_var (M : str_methods) (environ : gmap string string)
    (key : string) (default : option string) (required : bool)
    (cast_type : option cast) : outcome value :=
  let value0 := os_getenv environ key default in
  if required && bool_decide (value0 = None) then
    Raise (mk_exc ConfigurationError
             ("Required environment variable '" +:+ key +:+ "' not set"))
  else
    match value0, cast_type with
    | Some v, Some CastBool =>
        Return (VBool (bool_decide (lower M v ∈ ["true"; "1"; "yes"; "on"])))
    | Some v, Some CastList =>
        Return (VList (filter (fun item => item ≠ "")
                         (map (strip M) (split M v ","))))
    | Some v, Some (CastType target_type) =>
        safe_cast v target_type (of_default default)
    | Some v, None => Return (VStr v)
    | None, _ => Return VNone
    end.

End Env.

(** ** [deep_merge] *)
Module Dicts.

#[local] Set Warnings "-register-all".

(** A dictionary value: anything that is not a [dict] is a leaf.  A
    dictionary is the list of its items in insertion order. *)
Inductive value (A : Type) : Type :=
  | Leaf (a : A)
  | Dict (items : list (string * value A)).
Arguments Leaf {A} a.
Arguments Dict {A} items.

(** [d.get(key)]. *)
Fixpoint dict_get {V : Type} (d : list (string * V)) (key : string) : option V :=
  match d with
  | [] => None
  | (k, v) :: rest => if decide (k = key) then Some v else dict_get rest key
  end.

(** [d[key] = v]: in place when the key is there, at the end otherwise. *)
Fixpoint dict_set {V : Type} (d : list (string * V)) (key : string) (v : V)
    : list (string * V) :=
  match d with
  | [] => [(key, v)]
  | (k, v0) :: rest =>
      if decide (k = key) then (k, v) :: rest
      else (k, v0) :: dict_set rest key v
  end.

Definition keys {V : Type} (d : list (string * V)) : list string := map fst d.

(** What [deep_merge] assigns to [result[key]] when [dict2] has [value0]
    under [key] and [result] has [old] (or nothing) there: the deep merge
    of the two when both are dictionaries, [value0] otherwise.  The inner
    loop is [merge_items] below, written in place for the recursion to be
    structural on [value0]. *)
Fixpoint merged_value {A : Type} (old : option (value A)) (value0 : value A)
    {struct value0} : value A :=
  match old, value0 with
  | Some (Dict d1), Dict d2 =>
      Dict ((fix loop (result items : list (string * value A)) {struct items} :=
               match items with
               | [] => result
               | (key, v) :: rest =>
                   loop (dict_set result key
                           (merged_value (dict_get result key) v)) rest
               end) d1 d2)
  | _, _ => value0
  end.

(** The loop [for key, value in dict2.items()] on the items still to
    visit, [result] being the copy of [dict1] as updated so far. *)
Fixpoint merge_items {A : Type} (result items : list (string * value A))
    : list (string * value A) :=
  match items with
  | [] => result
  | (key, value0) :: rest =>
      merge_items
        (dict_set result key (merged_value (dict_get result key) value0)) rest
  end.

Definition deep_merge {A : Type} (dict1 dict2 : list (string * value A))
    : list (string * value A) :=
  merge_items dict1 dict2.

End Dicts.

(** ** [chunk_list] *)
Module Chunks.

(** The number of elements of [range(start, stop, step)], [step <> 0]. *)
Definition range_length (start stop step : Z) : Z :=
  if 0 <? step then
    if start <? stop then (stop - start - 1) / step + 1 else 0
  else
    if stop <? start then (start - stop - 1) / (- step) + 1 else 0.

(** [range(start, stop, step)]; a zero step is a [ValueError]. *)
Definition range3 (start stop step : Z) : outcome (list Z) :=
  if step =? 0 then
    Raise (mk_exc (Builtin ValueError) "range() arg 3 must not be zero")
  else
    Return (map (fun i => start + Z.of_nat i * step)
              (seq 0 (Z.to_nat (range_length start stop step)))).

(** How a slice bound is brought into [0 .. len]. *)
Definition adjust_index (len i : Z) : Z :=
  if i <? 0 then Z.max (i + len) 0 else Z.min i len.

(** [lst[i:j]]. *)
Definition slice {A : Type} (lst : list A) (i j : Z) : list A :=
  let len := Z.of_nat (length lst) in
  let start := adjust_index len i in
  let stop := adjust_index len j in
  take (Z.to_nat (stop - start)) (drop (Z.to_nat start) lst).

Definition chunk_list {A : Type} (lst : list A) (chunk_size : Z)
    : outcome (list (list A)) :=
  match range3 0 (Z.of_nat (length lst)) chunk_size with
  | Return indices => Return (map (fun i => slice lst i (i + chunk_size)) indices)
  | Raise e => Raise e
  end.

End Chunks.

(** ** The time a call of the retry wrapper spends suspended *)
Module RetryLatency.
Import Retry.

(** The sum of the suspensions of a trace. *)
Definition total_sleep {A : Type} (tr : list (event Qc A)) : Qc :=
  foldr Qcplus 0%Qc (sleeps tr).

End RetryLatency.

(** ** [remove_duplicates] *)
Module Dedup.

Section RemoveDuplicates.
Context {A K : Type} {EqA : EqDecision A} {CntA : Countable A}
        {EqK : EqDecision K} {CntK : Countable K}.

(** The loop of the branch with a key function, on the items still to
    visit: [seen] is the set of keys met so far, [result] the list built
    so far. *)
Fixpoint keyed_loop (key : A -> K) (lst : list A) (seen : gset K)
    (result : list A) : list A :=
  match lst with
  | [] => result
  | item :: rest =>
      let k := key item in
      if decide (k ∈ seen) then keyed_loop key rest seen result
      else keyed_loop key rest ({[k]} ∪ seen) (result ++ [item])
  end.

(** [[x for x in lst if not (x in seen or seen.add(x))]]. *)
Fixpoint unseen (lst : list A) (seen : gset A) : list A :=
  match lst with
  | [] => []
  | x :: rest =>
      if decide (x ∈ seen) then unseen rest seen
      else x :: unseen rest ({[x]} ∪ seen)
  end.

Definition remove_duplicates (lst : list A) (key : option (A -> K)) : list A :=
  match key with
  | Some f => keyed_loop f lst ∅ []
  | None => unseen lst ∅
  end.

End RemoveDuplicates.
End Dedup.

(** ** [flatten_dict] *)
Module Flatten.
Import Dicts.

(** [f"{parent_key}{separator}{key}" if parent_key else key]. *)
Definition join_key (parent_key separator key : string) : string :=
  if decide (parent_key = "") then key
  else parent_key +:+ separator +:+ key.

(** [dict(items)]: a later pair with a key already there replaces the
    value in place. *)
Definition dict_of_items {V : Type} (items : list (string * V))
    : list (string * V) :=
  fold_left (fun d kv => dict_set d kv.1 kv.2) items [].

(** The pairs one entry of the dictionary adds to [items]: the items of
    the flattened sub-dictionary when the value is a dictionary, the pair
    [(new_key, value)] otherwise.  The inner loop is [collect_items] below,
    written in place for the recursion to be structural. *)
Fixpoint entry_items {A : Type} (separator new_key : string)
    (value0 : value A) {struct value0} : list (string * value A) :=
  match value0 with
  | Dict d =>
      dict_of_items
        ((fix loop (items : list (string * value A)) :=
            match items with
            | [] => []
            | (key, v) :: rest =>
                entry_items separator (join_key new_key separator key) v
                  ++ loop rest
            end) d)
  | Leaf _ => [(new_key, value0)]
  end.

(** The list [items] after the loop [for key, value in d.items()]. *)
Fixpoint collect_items {A : Type} (parent_key separator : string)
    (d : list (string * value A)) : list (string * value A) :=
  match d with
  | [] => []
  | (key, v) :: rest =>
      entry_items separator (join_key parent_key separator key) v
        ++ collect_items parent_key separator rest
  end.

Definition flatten_dict {A : Type} (d : list (string * value A))
    (parent_key separator : string) : list (string * value A) :=
  dict_of_items (collect_items parent_key separator d).

Definition is_leaf {A : Type} (v : value A) : bool :=
  match v with Leaf _ => true | Dict _ => false end.

(** Induction on a value, with the induction hypothesis for every value
    of a dictionary. *)
Fixpoint value_nested_ind {A : Type} (P : value A -> Prop)
    (Hleaf : forall a, P (Leaf a))
    (Hdict : forall items, Forall (fun kv => P kv.2) items -> P (Dict items))
    (v : value A) {struct v} : P v :=
  match v with
  | Leaf a => Hleaf a
  | Dict items =>
      Hdict items
        ((fix go (l : list (string * value A)) : Forall (fun kv => P kv.2) l :=
            match l with
            | [] => Forall_nil _
            | (k, v0) :: rest =>
                Forall_cons (fun kv => P kv.2) (k, v0) rest
                  (value_nested_ind P Hleaf Hdict v0) (go rest)
            end) items)
  end.

End Flatten.

(** ** Well-formed dictionary values *)
Module DictsWf.
Import Dicts.

(** A value as Python builds it: no dictionary, at any depth, has a key
    twice. *)
Fixpoint wf {A : Type} (v : value A) : Prop :=
  match v with
  | Leaf _ => True
  | Dict items =>
      NoDup (keys items) /\
      (fix all (l : list (string * value A)) : Prop :=
         match l with
         | [] => True
         | (_, v0) :: rest => wf v0 /\ all rest
         end) items
  end.

End DictsWf.

(** ** [sanitize_string] *)
Module Sanitize.

(** A [str] is the list of its characters.  The two regular-expression
    substitutions and [str.isspace] on a character are taken as given:
    [remove_tags] is [re.sub(r'<[^>]+>', '', value)] and [keep_allowed p]
    is [re.sub(f'[^{p}]', '', value)], which raises [re.error] when [p]
    does not make a character class. *)
Record text_ops (C : Type) : Type := {
  remove_tags : list C -> list C;
  keep_allowed : list C -> list C -> outcome (list C);
  isspace : C -> bool
}.
Arguments remove_tags {C} _ _.
Arguments keep_allowed {C} _ _ _.
Arguments isspace {C} _ _.

Section Sanitize.
Context {C : Type}.
Variable T : text_ops C.

(** [s.lstrip()]. *)
Fixpoint lstrip (s : list C) : list C :=
  match s with
  | [] => []
  | c :: rest => if isspace T c then lstrip rest else s
  end.

(** [s.strip()]. *)
Definition strip (s : list C) : list C :=
  reverse (lstrip (reverse (lstrip s))).

Definition sanitize_string (value : list C) (max_length : option Z)
    (allowed_chars : option (list C)) (remove_html : bool)
    : outcome (list C) :=
  match value with
  | [] => Return []
  | _ :: _ =>
      let value1 := if remove_html then remove_tags T value else value in
      let filtered :=
        match allowed_chars with
        | Some (_ :: _ as pattern) => keep_allowed T pattern value1
        | _ => Return value1
        end in
      match filtered with
      | Raise e => Raise e
      | Return value2 =>
          let value3 :=
            match max_length with
            | Some n =>
                if negb (n =? 0) && (n <? Z.of_nat (length value2))
                then Chunks.slice value2 0 n
                else value2
            | None => value2
            end in
          Return (strip value3)
      end
  end.

End Sanitize.
End Sanitize.

(** ** Operations used to exercise the definitions *)
Module Fixtures.
(** An operation that counts its invocations in the world and raises a
    [ValueError] carrying that count every time. *)
Definition always_value_error (n : nat) : outcome Z * nat :=
  (Raise (mk_exc (Builtin ValueError) (pretty n)), S n).

(** An operation that raises [KeyboardInterrupt] every time. *)
Definition always_interrupted (n : nat) : outcome Z * nat :=
  (Raise (mk_exc (Builtin KeyboardInterrupt) ""), S n).

(** An operation that raises [ValueError] on its first two invocations and
    returns 42 from the third one on. *)
Definition fails_twice (n : nat) : outcome Z * nat :=
  (if (n <? 2)%nat then Raise (mk_exc (Builtin ValueError) (pretty n))
   else Return 42, S n).

(** An operation that raises [ValueError] on its first three invocations
    and returns 42 from the fourth one on. *)
Definition fails_thrice (n : nat) : outcome Z * nat :=
  (if (n <? 3)%nat then Raise (mk_exc (Builtin ValueError) (pretty n))
   else Return 42, S n).

(** An operation whose first invocation raises [KeyboardInterrupt] and
    whose later invocations return 42. *)
Definition interrupted_once (n : nat) : outcome Z * nat :=
  (if (n <? 1)%nat then Raise (mk_exc (Builtin KeyboardInterrupt) "")
   else Return 42, S n).

(** A suspension that completes and leaves the world as it is. *)
Definition no_sleep_effect (d : Qc) (n : nat) : outcome unit * nat :=
  (Return tt, n).

(** [(n / d) / 2 ^ e] as a fraction of integers. *)
Definition shifted (n d e : Z) : Z * Z :=
  if 0 <=? e then (n, d * 2 ^ e) else (n * 2 ^ (- e), d).

(** The [float] nearest to [n / d], for positive [n] and [d]: a
    significand of 53 bits, ties to the even one (the exponent is not
    bounded here). *)
Definition nearest_float_pos (n d : Z) : Qc :=
  let l := Z.log2 n - Z.log2 d in
  let '(n0, d0) := shifted n d l in
  let e := (if d0 <=? n0 then l else l - 1) - 52 in
  let '(n1, d1) := shifted n d e in
  let m := n1 / d1 in
  let m' := match 2 * (n1 mod d1) ?= d1 with
            | Lt => m
            | Gt => m + 1
            | Eq => if Z.even m then m else m + 1
            end in
  if 0 <=? e then Qc_of_Z (m' * 2 ^ e)
  else Q2Qc (m' # Z.to_pos (2 ^ (- e))).

Definition nearest_float (q : Qc) : Qc :=
  match Qnum q with
  | 0 => 0%Qc
  | Zpos _ => nearest_float_pos (Qnum q) (Zpos (Qden q))
  | Zneg _ => (- nearest_float_pos (- Qnum q) (Zpos (Qden q)))%Qc
  end.

(** The arithmetic of Python's [float] on finite values of the normal
    range: a result is rounded to the nearest [float], and a power that
    rounds beyond the largest one raises [OverflowError], as [x ** n]
    does.  (A product out of range is [inf] in Python; none occurs in the
    runs below.) *)
Definition float_numbers : Retry.numbers Qc :=
  {| Retry.pow := fun x n =>
       let p := nearest_float (x ^ Z.to_nat n)%Qc in
       if decide (Qc_of_Z (2 ^ 1024) <= p)%Qc
       then Raise (mk_exc (Builtin OverflowError)
                     "(34, 'Numerical result out of range')")
       else if decide (p <= - Qc_of_Z (2 ^ 1024))%Qc
       then Raise (mk_exc (Builtin OverflowError)
                     "(34, 'Numerical result out of range')")
       else Return p;
     Retry.mul := fun x y => Return (nearest_float (x * y)%Qc) |}.

(** The floats [1e200] and [0.1]. *)
Definition float_1e200 : Qc := nearest_float (Qc_of_Z (10 ^ 200)).

(** Arguments of a call: an [int], or an instance of a user class whose
    [__repr__] returns [repr_text]. *)
Inductive py_arg : Set :=
  | PyInt (z : Z)
  | PyInstance (class_name repr_text : string).

Definition py_repr (v : py_arg) : string :=
  match v with
  | PyInt z => pretty z
  | PyInstance _ r => r
  end.

(** [str(args)] for a tuple of positional arguments. *)
Definition str_tuple (args : list py_arg) : string :=
  match args with
  | [] => "()"
  | [x] => "(" +:+ py_repr x +:+ ",)"
  | x :: rest =>
      "(" +:+ py_repr x +:+
      fold_right (fun y acc => ", " +:+ py_repr y +:+ acc) ")" rest
  end.

(** [str(args) + str(sorted(kwargs.items()))] for a call without keyword
    arguments. *)
Definition str_positional (args : list py_arg) : string :=
  str_tuple args +:+ "[]".

(** A world with a counter and a clock in whole seconds. *)
Definition counter_builtins (h : string -> Z) : Cache.builtins (list py_arg) (nat * Z) :=
  {| Cache.str_of_call := str_positional;
     Cache.hash := h;
     Cache.time_time := fun w => Qc_of_Z (snd w) |}.


(** A function that increments the counter and returns it. *)
Definition increment : Cache.function (list py_arg) nat (nat * Z) :=
  {| Cache.fn_name := "increment";
     Cache.fn_call := fun _ w => (Return (S (fst w)), (S (fst w), snd w)) |}.

(** A function that raises [RuntimeError] on every call. *)
Definition broken : Cache.function (list py_arg) nat (nat * Z) :=
  {| Cache.fn_name := "broken";
     Cache.fn_call := fun _ w =>
       (Raise (mk_exc (Builtin RuntimeError) "boom"), (S (fst w), snd w)) |}.

(** A stand-in for [hash] where a concrete one is needed. *)
Definition length_hash (s : string) : Z := Z.of_nat (String.length s).

Definition empty_state {Res : Type} : Cache.state Res (nat * Z) :=
  Cache.Build_state ∅ (0%nat, 0) 0.

(** [time.sleep(seconds)]. *)
Definition time_sleep (seconds : Z) (w : nat * Z) : nat * Z :=
  (fst w, snd w + seconds).

End Fixtures.

(** ** Further operations used to exercise the definitions *)
Module MoreFixtures.

(** An operation whose first invocation raises [ValueError] and whose
    later invocations raise [KeyboardInterrupt]. *)
Definition interrupted_after_one (n : nat) : outcome Z * nat :=
  (if (n <? 1)%nat then Raise (mk_exc (Builtin ValueError) "")
   else Raise (mk_exc (Builtin KeyboardInterrupt) ""), S n).

End MoreFixtures.

Module SanitizeFixtures.

(** Characters as code points, with the blank as the only space and the
    substitutions left out. *)
Definition code_point_ops : Sanitize.text_ops nat :=
  {| Sanitize.remove_tags := fun s => s;
     Sanitize.keep_allowed := fun _ s => Return s;
     Sanitize.isspace := fun c => bool_decide (c = 32%nat) |}.

End SanitizeFixtures.

(* ===================================================================== *)
(** * Part II: properties                                                 *)
(* ===================================================================== *)

Module RetryProps.
Import Retry Fixtures.

Section Loop.
Context {Num W A : Type}.
Variable P : numbers Num.
Variables (max_attempts : Z) (delay backoff : Num).
Variable func : W -> outcome A * W.
Variable sleep : Num -> W -> outcome unit * W.

Local Abbreviation loop :=
  (attempt_loop P max_attempts delay backoff func sleep).
Local Abbreviation attempts_from i n := (map Z.of_nat (seq i n)).
Local Abbreviation wfrom := (world_from P delay backoff func sleep).
Local Abbreviation delay_of i := (backoff_delay P delay backoff (Z.of_nat i)).

Lemma range_attempts :
  range max_attempts = attempts_from 0 (Z.to_nat max_attempts).
Proof. reflexivity. Qed.

(** An attempt whose outcome [except Exception] does not catch ends the
    loop with that outcome. *)
Lemma loop_final s n lastx w :
  caught (func w).1 = false ->
  loop (attempts_from s (S n)) lastx w = ((func w).1, (func w).2, [Invoke (func w).1]).
Proof.
  intros Hc. cbn [seq map attempt_loop]. destruct (func w) as [[v|e] w1]; [done |].
  cbn in Hc. cbn [fst snd]. by rewrite Hc.
Qed.

(** The last attempt ends the loop with its outcome, caught or not. *)
Lemma loop_last s n lastx w :
  Z.of_nat s = max_attempts - 1 ->
  loop (attempts_from s (S n)) lastx w = ((func w).1, (func w).2, [Invoke (func w).1]).
Proof.
  intros Hs. cbn [seq map attempt_loop]. destruct (func w) as [[v|e] w1]; [done |].
  cbn [fst snd]. destruct (isinstance e _); [| done].
  destruct (Z.eqb_spec (Z.of_nat s) (max_attempts - 1)); [done | contradiction].
Qed.

(** A caught failure before the last attempt whose delay cannot be
    computed. *)
Lemma loop_delay_raises s n lastx w e' :
  caught (func w).1 = true ->
  Z.of_nat s <> max_attempts - 1 ->
  delay_of s = Raise e' ->
  loop (attempts_from s (S n)) lastx w = (Raise e', (func w).2, [Invoke (func w).1]).
Proof.
  intros Hc Hs Hd. cbn [seq map attempt_loop].
  destruct (func w) as [[v|e] w1]; [discriminate |]. cbn in Hc. cbn [fst snd].
  rewrite Hc, Hd.
  destruct (Z.eqb_spec (Z.of_nat s) (max_attempts - 1)); [contradiction | done].
Qed.

(** A caught failure before the last attempt whose suspension raises. *)
Lemma loop_sleep_raises s n lastx w d e' w2 :
  caught (func w).1 = true ->
  Z.of_nat s <> max_attempts - 1 ->
  delay_of s = Return d ->
  sleep d (func w).2 = (Raise e', w2) ->
  loop (attempts_from s (S n)) lastx w =
    (Raise e', w2, [Invoke (func w).1; Sleep d]).
Proof.
  intros Hc Hs Hd Hsl. cbn [seq map attempt_loop].
  destruct (func w) as [[v|e] w1]; [discriminate |]. cbn in Hc, Hsl. cbn [fst snd].
  rewrite Hc, Hd, Hsl.
  destruct (Z.eqb_spec (Z.of_nat s) (max_attempts - 1)); [contradiction | done].
Qed.

(** A caught failure before the last attempt followed by a suspension
    that completes: the loop goes on in the world the suspension left. *)
Lemma loop_retry s n lastx w d u w2 :
  caught (func w).1 = true ->
  Z.of_nat s <> max_attempts - 1 ->
  delay_of s = Return d ->
  sleep d (func w).2 = (Return u, w2) ->
  exists lastx',
    loop (attempts_from s (S n)) lastx w =
      let '(r', w', tr) := loop (attempts_from (S s) n) lastx' w2 in
      (r', w', Invoke (func w).1 :: Sleep d :: tr).
Proof.
  intros Hc Hs Hd Hsl. cbn [seq map attempt_loop].
  destruct (func w) as [[v|e] w1]; [discriminate |]. cbn in Hc, Hsl. cbn [fst snd].
  rewrite Hc, Hd, Hsl. exists (Some e).
  destruct (Z.eqb_spec (Z.of_nat s) (max_attempts - 1)); [contradiction | done].
Qed.

Lemma next_world_Some s w w2 :
  next_world P delay backoff func sleep s w = Some w2 ->
  exists d u, delay_of s = Return d /\ sleep d (func w).2 = (Return u, w2).
Proof.
  unfold next_world. destruct (delay_of s) as [d|e]; [| discriminate].
  destruct (sleep d (func w).2) as [[u|e] w2'] eqn:Hsl; [| discriminate].
  intros [= <-]. by exists d, u.
Qed.

(** The world of invocation [j+1] is the one the suspension after
    invocation [j] leaves. *)
Lemma world_from_S j : forall s w,
  wfrom s w (S j) =
    match wfrom s w j with
    | Some wj => next_world P delay backoff func sleep (s + j) wj
    | None => None
    end.
Proof.
  induction j as [|j IH]; intros s w.
  - cbn. rewrite Nat.add_0_r. by destruct (next_world _ _ _ _ _ _ _).
  - cbn [world_from]. destruct (next_world P delay backoff func sleep s w) as [w1|];
      [| done].
    rewrite <- Nat.add_succ_comm. apply (IH (S s) w1).
Qed.

Lemma world_from_le j : forall s w i,
  (i <= j)%nat -> is_Some (wfrom s w j) -> is_Some (wfrom s w i).
Proof.
  induction j as [|j IH]; intros s w i Hi Hj.
  - by replace i with 0%nat by lia.
  - destruct (decide (i = S j)) as [->|Hne]; [done |].
    apply IH; [lia |]. rewrite world_from_S in Hj.
    destruct (wfrom s w j); [done | by destruct Hj].
Qed.

(** When the attempts before attempt [m] (counted from [s]) are caught
    and followed by completed suspensions, and attempt [m] is not caught or
    is the last one, the loop ends with the outcome of attempt [m]. *)
Lemma loop_reaches m : forall s n lastx w wk,
  Z.of_nat (s + S n) = max_attempts ->
  (m <= n)%nat ->
  (forall j, (j < m)%nat ->
     exists wj, wfrom s w j = Some wj /\ caught (func wj).1 = true) ->
  wfrom s w m = Some wk ->
  caught (func wk).1 = false \/ m = n ->
  exists tr,
    loop (attempts_from s (S n)) lastx w = ((func wk).1, (func wk).2, tr) /\
    length (invocations tr) = S m /\
    length (sleeps tr) = m /\
    (forall j, (j <= m)%nat ->
       exists wj, wfrom s w j = Some wj /\
                  invocations tr !! j = Some (func wj).1) /\
    (forall j, (j < m)%nat ->
       exists dj, delay_of (s + j) = Return dj /\ sleeps tr !! j = Some dj).
Proof.
  induction m as [|m IH]; intros s n lastx w wk HN Hmn Hfail Hwk Hend.
  - cbn in Hwk. injection Hwk as <-. exists [Invoke (func w).1]. split.
    + destruct Hend as [Hc| <-]; [by apply loop_final | apply loop_last; lia].
    + split; [done |]. split; [done |]. split; [| intros j Hj; lia].
      intros j Hj. replace j with 0%nat by lia. by exists w.
  - destruct (Hfail 0%nat) as (w0 & Hw0 & Hc); [lia |].
    cbn in Hw0. injection Hw0 as <-.
    cbn [world_from] in Hwk.
    destruct (next_world P delay backoff func sleep s w) as [w2|] eqn:Hnext;
      [| discriminate].
    destruct (next_world_Some s w w2 Hnext) as (d & u & Hd & Hsl).
    destruct n as [|n]; [lia |].
    destruct (loop_retry s (S n) lastx w d u w2 Hc ltac:(lia) Hd Hsl)
      as (lastx' & ->).
    destruct (IH (S s) n lastx' w2 wk) as (tr & -> & Hinv & Hsleeps & Hi & Hs);
      [lia | lia | | done | destruct Hend; [by left | right; lia] |].
    { intros j Hj. destruct (Hfail (S j)) as (wj & Hwj & Hcj); [lia |].
      cbn [world_from] in Hwj. rewrite Hnext in Hwj. by exists wj. }
    eexists. split; [reflexivity |]. cbn [invocations sleeps length].
    split; [by rewrite Hinv |]. split; [by rewrite Hsleeps |]. split.
    + intros [|j] Hj; [by exists w |].
      destruct (Hi j) as (wj & Hwj & Hl); [lia |]. exists wj.
      cbn [world_from]. by rewrite Hnext.
    + intros [|j] Hj; [exists d; by rewrite Nat.add_0_r |].
      destruct (Hs j) as (dj & Hdj & Hl); [lia |]. exists dj.
      by rewrite <- Nat.add_succ_comm.
Qed.

(** What every run of the loop looks like: [k] caught failures, each
    followed by a suspension that completed, then attempt [k], after which
    the loop ends in one of three ways. *)
Lemma loop_shape n : forall s lastx w,
  Z.of_nat (s + S n) = max_attempts ->
  let r := (loop (attempts_from s (S n)) lastx w).1.1 in
  let w' := (loop (attempts_from s (S n)) lastx w).1.2 in
  let tr := (loop (attempts_from s (S n)) lastx w).2 in
  exists k wk,
    (k <= n)%nat /\ wfrom s w k = Some wk /\
    (forall j, (j < k)%nat ->
       exists wj dj,
         wfrom s w j = Some wj /\ caught (func wj).1 = true /\
         delay_of (s + j) = Return dj /\
         tr !! (2 * j)%nat = Some (Invoke (func wj).1) /\
         tr !! (2 * j + 1)%nat = Some (Sleep dj)) /\
    tr !! (2 * k)%nat = Some (Invoke (func wk).1) /\
    ((length tr = (2 * k + 1)%nat /\ r = (func wk).1 /\ w' = (func wk).2 /\
      (caught (func wk).1 = false \/ k = n)) \/
     (length tr = (2 * k + 1)%nat /\ w' = (func wk).2 /\
      caught (func wk).1 = true /\ (k < n)%nat /\
      exists e', delay_of (s + k) = Raise e' /\ r = Raise e') \/
     (length tr = (2 * k + 2)%nat /\
      caught (func wk).1 = true /\ (k < n)%nat /\
      exists d e', delay_of (s + k) = Return d /\
                   tr !! (2 * k + 1)%nat = Some (Sleep d) /\
                   sleep d (func wk).2 = (Raise e', w') /\ r = Raise e')).
Proof.
  induction n as [|n IH]; intros s lastx w HN; cbv zeta.
  - exists 0%nat, w. rewrite (loop_last s 0 lastx w) by lia. cbn.
    split; [lia |]. split; [done |]. split; [intros j Hj; lia |].
    split; [done |]. left. repeat split; try done. by right.
  - destruct (caught (func w).1) eqn:Hc.
    2:{ exists 0%nat, w. rewrite (loop_final s (S n) lastx w Hc). cbn.
        split; [lia |]. split; [done |]. split; [intros j Hj; lia |].
        split; [done |]. left. repeat split; try done. by left. }
    destruct (delay_of s) as [d|e'] eqn:Hd.
    2:{ exists 0%nat, w.
        rewrite (loop_delay_raises s (S n) lastx w e' Hc ltac:(lia) Hd). cbn.
        split; [lia |]. split; [done |]. split; [intros j Hj; lia |].
        split; [done |]. right. left. rewrite Nat.add_0_r.
        repeat split; try done; try lia. by exists e'. }
    destruct (sleep d (func w).2) as [[u|e'] w2] eqn:Hsl.
    2:{ exists 0%nat, w.
        rewrite (loop_sleep_raises s (S n) lastx w d e' w2 Hc ltac:(lia) Hd Hsl).
        cbn. split; [lia |]. split; [done |]. split; [intros j Hj; lia |].
        split; [done |]. right. right. rewrite Nat.add_0_r.
        repeat split; try done; try lia. by exists d, e'. }
    destruct (loop_retry s (S n) lastx w d u w2 Hc ltac:(lia) Hd Hsl)
      as (lastx' & ->).
    assert (Hnext : next_world P delay backoff func sleep s w = Some w2).
    { unfold next_world. by rewrite Hd, Hsl. }
    specialize (IH (S s) lastx' w2 ltac:(lia)). cbv zeta in IH.
    destruct (loop (attempts_from (S s) (S n)) lastx' w2) as [[r' w'] tr].
    cbn [fst snd] in *.
    destruct IH as (k & wk & Hk & Hwk & Hpre & Hinv & Hend).
    exists (S k), wk. split; [lia |]. split.
    { cbn [world_from]. by rewrite Hnext. }
    assert (Hshift : forall i,
              (Invoke (func w).1 :: Sleep d :: tr) !! (2 * S i)%nat
              = tr !! (2 * i)%nat /\
              (Invoke (func w).1 :: Sleep d :: tr) !! (2 * S i + 1)%nat
              = tr !! (2 * i + 1)%nat).
    { intros i. replace (2 * S i)%nat with (S (S (2 * i))) by lia.
      replace (S (S (2 * i)) + 1)%nat with (S (S (2 * i + 1))) by lia. done. }
    split; [| split].
    + intros [|j] Hj.
      * exists w, d. rewrite Nat.add_0_r. done.
      * destruct (Hpre j) as (wj & dj & Hwj & Hcj & Hdj & H0 & H1); [lia |].
        exists wj, dj. cbn [world_from]. rewrite Hnext.
        destruct (Hshift j) as [-> ->]. rewrite <- Nat.add_succ_comm. done.
    + by destruct (Hshift k) as [-> _].
    + cbn [length]. replace (s + S k)%nat with (S s + k)%nat by lia.
      destruct Hend as [(Hl & Hr & Hw & Hf)|[(Hl & Hw & Hck & Hkn & e' & He' & Hr)
                       |(Hl & Hck & Hkn & d' & e' & Hd' & Hs' & Hsl' & Hr)]].
      * left. split; [lia |]. split; [done |]. split; [done |].
        destruct Hf; [by left | right; lia].
      * right. left. split; [lia |]. split; [done |]. split; [done |].
        split; [lia |]. by exists e'.
      * right. right. split; [lia |]. split; [done |]. split; [lia |].
        exists d', e'. destruct (Hshift k) as [_ ->]. done.
Qed.

Lemma caught_true (o : outcome A) :
  caught o = true <->
  exists e, o = Raise e /\ isinstance e (Builtin Exception) = true.
Proof.
  destruct o as [v|e]; cbn.
  - split; [discriminate | by intros (e & ? & _)].
  - split; [by exists e | by intros (e' & [= <-] & ?)].
Qed.

(** C1, as amended: when [max_attempts >= 1], every invocation of the
    operation raises an instance of [Exception], and every delay is
    computed and every suspension completes (the world of the last attempt
    is reached), the wrapper invokes the operation exactly [max_attempts]
    times, in the worlds [world_at w 0], [world_at w 1], ..., and raises
    the exception the last of these invocations raised. *)
Theorem retry_async_exhausts_attempts (w : W) :
  1 <= max_attempts ->
  (forall w, exists e, (func w).1 = Raise e /\
                       isinstance e (Builtin Exception) = true) ->
  is_Some (world_at P delay backoff func sleep w (Z.to_nat max_attempts - 1)) ->
  exists wl e tr,
    world_at P delay backoff func sleep w (Z.to_nat max_attempts - 1)
      = Some wl /\
    (func wl).1 = Raise e /\
    retry_async P max_attempts delay backoff func sleep w
      = (Raise e, (func wl).2, tr) /\
    length (invocations tr) = Z.to_nat max_attempts /\
    (forall j, (j < Z.to_nat max_attempts)%nat ->
       exists wj, world_at P delay backoff func sleep w j = Some wj /\
                  invocations tr !! j = Some (func wj).1).
Proof.
  intros HN Hfail [wl Hwl]. unfold retry_async, world_at in *.
  rewrite range_attempts.
  destruct (Z.to_nat max_attempts) as [|n] eqn:Hn; [lia |].
  replace (S n - 1)%nat with n in * by lia.
  assert (Hc : forall w0, caught (func w0).1 = true)
    by (intros w0; by apply caught_true).
  destruct (loop_reaches n 0 n None w wl) as (tr & Hrun & Hinv & _ & Hi & _);
    [lia | lia | | done | by right |].
  { intros j Hj. destruct (world_from_le n 0 w j) as [wj Hwj]; [lia | done |].
    by exists wj. }
  destruct (Hfail wl) as (e & He & _). exists wl, e, tr.
  split; [done |]. split; [done |]. split; [by rewrite Hrun, He |].
  split; [done |]. intros j Hj. apply Hi. lia.
Qed.

(** C2, as amended: when the first [k-1] invocations raise instances of
    [Exception], each is followed by a delay that is computed and a
    suspension that completes, and the [k]-th invocation returns [v], with
    [1 <= k <= max_attempts], the wrapper invokes the operation exactly [k]
    times, in the worlds [world_at w 0], ..., and returns [v]. *)
Theorem retry_async_returns_first_success (k : nat) (v : A) (w wk : W) :
  (1 <= k)%nat ->
  Z.of_nat k <= max_attempts ->
  (forall j, (j < k - 1)%nat -> exists wj e,
      world_at P delay backoff func sleep w j = Some wj /\
      (func wj).1 = Raise e /\
      isinstance e (Builtin Exception) = true) ->
  world_at P delay backoff func sleep w (k - 1) = Some wk ->
  (func wk).1 = Return v ->
  exists tr,
    retry_async P max_attempts delay backoff func sleep w
      = (Return v, (func wk).2, tr) /\
    length (invocations tr) = k /\
    (forall j, (j < k)%nat ->
       exists wj, world_at P delay backoff func sleep w j = Some wj /\
                  invocations tr !! j = Some (func wj).1).
Proof.
  intros Hk HN Hfail Hwk Hv. unfold retry_async, world_at in *.
  rewrite range_attempts.
  destruct (Z.to_nat max_attempts) as [|n] eqn:Hn; [lia |].
  destruct (loop_reaches (k - 1) 0 n None w wk)
    as (tr & Hrun & Hinv & _ & Hi & _); [lia | lia | | done | | ].
  { intros j Hj. destruct (Hfail j Hj) as (wj & e & Hwj & He & Hie).
    exists wj. split; [done |]. apply caught_true. by exists e. }
  { left. by rewrite Hv. }
  exists tr. split; [by rewrite Hrun, Hv |]. split; [lia |].
  intros j Hj. apply Hi. lia.
Qed.


End Loop.


Lemma backoff_delay_exact (d b : Qc) (i : nat) :
  backoff_delay exact_numbers d b (Z.of_nat i) = Return (d * b ^ i)%Qc.
Proof. unfold backoff_delay. cbn. by rewrite Nat2Z.id. Qed.


(** C1 as stated fails, in two ways.  An operation that raises
    [KeyboardInterrupt] on every invocation is invoked once, not
    [max_attempts = 2] times.  And with [max_attempts = 4] and
    [backoff = 1e200], an operation that raises [ValueError] on every
    invocation is invoked three times and the wrapper raises the
    [OverflowError] of [backoff ** 2], not the [ValueError]. *)
Lemma retry_async_uncaught_counterexample :
  (1 <= 2 /\
   (forall n, exists e n', always_interrupted n = (Raise e, n')) /\
   exists tr,
     retry_async exact_numbers 2 1%Qc (Q2Qc 2) always_interrupted
       no_sleep_effect 0%nat
       = (Raise (mk_exc (Builtin KeyboardInterrupt) ""), 1%nat, tr) /\
     length (invocations tr) = 1%nat /\
     length (invocations tr) <> Z.to_nat 2) /\
  (1 <= 4 /\
   (forall n, exists e, (always_value_error n).1 = Raise e /\
                        isinstance e (Builtin Exception) = true) /\
   exists tr,
     retry_async float_numbers 4 1%Qc float_1e200
       always_value_error no_sleep_effect 0%nat
       = (Raise (mk_exc (Builtin OverflowError)
                   "(34, 'Numerical result out of range')"), 3%nat, tr) /\
     length (invocations tr) = 3%nat /\
     length (invocations tr) <> Z.to_nat 4).
Proof.
  split.
  - split; [lia |]. split; [intros n; by eexists _, _ |].
    eexists. split; [reflexivity |]. split; [reflexivity | cbn; lia].
  - split; [lia |]. split; [intros n; by eexists |].
    eexists. split; [vm_compute; reflexivity |].
    split; [reflexivity | cbn; lia].
Qed.

Lemma retry_async_exhausts_attempts_witness :
  exists e tr,
    retry_async exact_numbers 3 (Q2Qc (1 # 100)) (Q2Qc 2) always_value_error
      no_sleep_effect 0%nat = (Raise e, 3%nat, tr) /\
    e = mk_exc (Builtin ValueError) "2" /\
    length (invocations tr) = 3%nat.
Proof.
  destruct (retry_async_exhausts_attempts exact_numbers 3 (Q2Qc (1 # 100))
              (Q2Qc 2) always_value_error no_sleep_effect 0%nat)
    as (wl & e & tr & Hwl & He & Hrun & Hlen & _).
  - lia.
  - intros n. by eexists.
  - by eexists.
  - injection Hwl as <-. injection He as <-.
    exists (mk_exc (Builtin ValueError) (pretty 2%nat)), tr.
    split; [exact Hrun |]. split; [reflexivity | exact Hlen].
Defined.

(** C2 as stated fails, in two ways.  With [max_attempts = 2], an
    operation whose first invocation raises [KeyboardInterrupt] and whose
    second would return 42 is invoked once and the wrapper raises.  And
    with [max_attempts = 4] and [backoff = 1e200], an operation that raises
    [ValueError] three times and would return 42 the fourth time is invoked
    three times and the wrapper raises the [OverflowError] of
    [backoff ** 2]. *)
Lemma retry_async_no_retry_counterexample :
  ((1 <= 2)%nat /\ Z.of_nat 2 <= 2 /\
   (interrupted_once 0).1 = Raise (mk_exc (Builtin KeyboardInterrupt) "") /\
   (interrupted_once 1).1 = Return 42 /\
   exists tr,
     retry_async exact_numbers 2 1%Qc (Q2Qc 2) interrupted_once
       no_sleep_effect 0%nat
       = (Raise (mk_exc (Builtin KeyboardInterrupt) ""), 1%nat, tr) /\
     length (invocations tr) = 1%nat) /\
  ((1 <= 4)%nat /\ Z.of_nat 4 <= 4 /\
   (forall n, (n < 3)%nat -> exists e,
       (fails_thrice n).1 = Raise e /\
       isinstance e (Builtin Exception) = true) /\
   (fails_thrice 3).1 = Return 42 /\
   exists tr,
     retry_async float_numbers 4 1%Qc float_1e200 fails_thrice
       no_sleep_effect 0%nat
       = (Raise (mk_exc (Builtin OverflowError)
                   "(34, 'Numerical result out of range')"), 3%nat, tr) /\
     length (invocations tr) = 3%nat).
Proof.
  split.
  - split; [lia |]. split; [lia |]. split; [reflexivity |].
    split; [reflexivity |]. eexists. split; reflexivity.
  - split; [lia |]. split; [lia |]. split.
    { intros [|[|[|n]]] Hn; try lia; by eexists. }
    split; [reflexivity |]. eexists. split; [vm_compute; reflexivity |].
    reflexivity.
Qed.

Lemma retry_async_returns_first_success_witness :
  exists tr,
    retry_async exact_numbers 3 (Q2Qc (1 # 100)) (Q2Qc 2) fails_twice
      no_sleep_effect 0%nat = (Return 42, (fails_twice 2).2, tr) /\
    length (invocations tr) = 3%nat /\
    (forall j, (j < 3)%nat ->
       exists wj, world_at exact_numbers (Q2Qc (1 # 100)) (Q2Qc 2) fails_twice
                    no_sleep_effect 0%nat j = Some wj /\
                  invocations tr !! j = Some (fails_twice wj).1).
Proof.
  apply (retry_async_returns_first_success exact_numbers 3 (Q2Qc (1 # 100))
           (Q2Qc 2) fails_twice no_sleep_effect 3 42 0%nat 2%nat);
    [lia | lia | | reflexivity | reflexivity].
  intros j Hj. destruct j as [|[|j]]; [| | lia].
  - exists 0%nat. by eexists.
  - exists 1%nat. by eexists.
Defined.



End RetryProps.

Module CacheProps.
Import Cache Fixtures.

Section Wrapper.
Context {Args Res W : Type}.
Variable B : builtins Args W.
Variable ttl_seconds : Qc.
Variable func : function Args Res W.

Local Abbreviation key := (cache_key B func).
Local Abbreviation call := (wrapper B ttl_seconds func).
Local Abbreviation now st := (time_time B (world st)).
Local Abbreviation is_live := (live B ttl_seconds func).

Lemma wrapper_hit a st r ts :
  cache st !! key a = Some (r, ts) ->
  (now st - ts < ttl_seconds)%Qc ->
  call a st = (Return r, st).
Proof. intros Hc Hlt. unfold wrapper. rewrite Hc. by rewrite decide_True. Qed.

Lemma wrapper_expired a st r ts :
  cache st !! key a = Some (r, ts) ->
  ~ (now st - ts < ttl_seconds)%Qc ->
  call a st = execute B func a (delete (key a) (cache st)) st.
Proof. intros Hc Hlt. unfold wrapper. rewrite Hc. by rewrite decide_False. Qed.

Lemma wrapper_absent a st :
  cache st !! key a = None ->
  call a st = execute B func a (cache st) st.
Proof. intros Hc. unfold wrapper. by rewrite Hc. Qed.

(** Without a live entry the wrapper executes the function, on the
    dictionary with the key removed. *)
Lemma wrapper_not_live a st :
  ~ is_live a st ->
  call a st = execute B func a (delete (key a) (cache st)) st.
Proof.
  intros Hnl. destruct (cache st !! key a) as [[r ts]|] eqn:Hc.
  - apply (wrapper_expired a st r ts Hc). intros Hlt. apply Hnl. by exists r, ts.
  - rewrite wrapper_absent by done. by rewrite delete_id.
Qed.

Lemma wrapper_live a st : is_live a st -> exists r, call a st = (Return r, st).
Proof. intros (r & ts & Hc & Hlt). exists r. by apply (wrapper_hit a st r ts). Qed.

Lemma live_dec a st : is_live a st \/ ~ is_live a st.
Proof.
  destruct (cache st !! key a) as [[r ts]|] eqn:Hc.
  - destruct (decide (now st - ts < ttl_seconds)%Qc) as [Hlt|Hlt].
    + left. by exists r, ts.
    + right. intros (r' & ts' & Hc' & Hlt'). congruence.
  - right. intros (r' & ts' & Hc' & _). congruence.
Qed.

(** What [execute] leaves behind. *)
Lemma execute_spec a c st :
  let o := (fn_call func a (world st)).1 in
  let w1 := (fn_call func a (world st)).2 in
  execute B func a c st =
    (o, Build_state
          (match o with
           | Return r => <[key a := (r, time_time B w1)]> c
           | Raise _ => c
           end) w1 (S (calls st))).
Proof.
  cbv zeta. unfold execute. by destruct (fn_call func a (world st)) as [[r|e] w1].
Qed.

(** A call only touches the entry under its own key. *)
Lemma wrapper_other_keys a st k :
  k <> key a -> cache (call a st).2 !! k = cache st !! k.
Proof.
  intros Hk. destruct (live_dec a st) as [Hl|Hl].
  - destruct (wrapper_live a st Hl) as [r ->]. done.
  - rewrite wrapper_not_live, execute_spec by done. cbn.
    destruct (fn_call func a (world st)).1.
    + rewrite lookup_insert_ne by done. by rewrite lookup_delete_ne.
    + by rewrite lookup_delete_ne.
Qed.


(** A call that finds no live entry: the function is invoked in the world
    of the call, its outcome is the answer, the entry of the key is
    removed, and a result is stored with the time read after the
    invocation. *)
Lemma wrapper_miss a st o w1 :
  ~ is_live a st ->
  fn_call func a (world st) = (o, w1) ->
  call a st =
    (o, Build_state
          (match o with
           | Return r => <[key a := (r, time_time B w1)]>
                           (delete (key a) (cache st))
           | Raise _ => delete (key a) (cache st)
           end) w1 (S (calls st))).
Proof.
  intros Hnl Hf. rewrite wrapper_not_live, execute_spec by done. by rewrite Hf.
Qed.

Lemma run_cons advance a rest st :
  let st0 := Build_state (cache st) (advance (world st)) (calls st) in
  run B ttl_seconds func ((advance, a) :: rest) st =
    (st0, a, (call a st0).1, (call a st0).2)
      :: run B ttl_seconds func rest (call a st0).2.
Proof. cbn. by destruct (wrapper _ _ _ _ _). Qed.


(** Every entry of the dictionary [c] was stored by one of the calls
    [records]: a call whose key is the entry's, that found no live entry,
    invoked the function and stored what it returned with the time read
    after the invocation. *)
Local Abbreviation stored_by records c :=
  (forall k r ts, c !! k = Some (r, ts) ->
     exists i sti ai sti',
       records !! i = Some (sti, ai, Return r, sti') /\
       key ai = k /\
       ~ is_live ai sti /\
       fn_call func ai (world sti) = (Return r, world sti') /\
       ts = now sti').



(** C5: in every sequence of calls, from any dictionary, every call is
    answered in one of two ways.  (1) When the key of the call has an entry
    younger than the TTL, the call returns the result stored there and
    leaves the state as it is.  (2) In every other case (no entry under the
    key, or one whose age has reached the TTL) the function is invoked, its
    outcome is the answer (no stored entry is returned), the entry of the
    key is removed, and a result is stored with the time read after the
    invocation.  (3) An entry that a call removed or replaced sat under
    the key of that call and its age had reached the TTL. *)
Theorem cache_result_lazy_expiry steps st0 :
  Forall (fun '(st, a, o, st') =>
    (forall r ts, cache st !! cache_key B func a = Some (r, ts) ->
       (now st - ts < ttl_seconds)%Qc -> o = Return r /\ st' = st) /\
    (~ live B ttl_seconds func a st ->
       fn_call func a (world st) = (o, world st') /\
       cache st' = match o with
                   | Return r' =>
                       <[cache_key B func a := (r', now st')]>
                         (delete (cache_key B func a) (cache st))
                   | Raise _ => delete (cache_key B func a) (cache st)
                   end) /\
    (forall k r ts, cache st !! k = Some (r, ts) ->
       cache st' !! k <> Some (r, ts) ->
       k = cache_key B func a /\ ~ (now st - ts < ttl_seconds)%Qc))
    (run B ttl_seconds func steps st0).
Proof.
  revert st0. induction steps as [|[advance a] rest IH]; intros st0.
  { constructor. }
  rewrite run_cons. cbv zeta. constructor; [| apply IH].
  set (st := Build_state (cache st0) (advance (world st0)) (calls st0)).
  split; [| split].
  - intros r ts Hc Hlt. by rewrite (wrapper_hit a st r ts Hc Hlt).
  - intros Hnl. destruct (fn_call func a (world st)) as [o w1] eqn:Hf.
    rewrite (wrapper_miss a st o w1 Hnl Hf). cbn. split; [done |].
    by destruct o.
  - intros k r ts Hk Hgone. destruct (decide (k = key a)) as [->|Hne].
    + split; [done |]. intros Hlt. apply Hgone.
      by rewrite (wrapper_hit a st r ts Hk Hlt).
    + exfalso. apply Hgone. by rewrite wrapper_other_keys.
Qed.

(** C6: when a call finds no live entry and the function raises [e], the
    wrapper raises [e], the key is left without an entry, the other entries
    are as they were, and the next call with the same arguments on that
    dictionary invokes the function again. *)
Theorem cache_result_failure_not_cached a st e w1 :
  ~ live B ttl_seconds func a st ->
  fn_call func a (world st) = (Raise e, w1) ->
  exists st',
    wrapper B ttl_seconds func a st = (Raise e, st') /\
    cache st' !! cache_key B func a = None /\
    calls st' = S (calls st) /\
    world st' = w1 /\
    (forall k, k <> cache_key B func a -> cache st' !! k = cache st !! k) /\
    (forall st2,
       cache st2 !! cache_key B func a = cache st' !! cache_key B func a ->
       (wrapper B ttl_seconds func a st2).1 = (fn_call func a (world st2)).1 /\
       calls (wrapper B ttl_seconds func a st2).2 = S (calls st2)).
Proof.
  intros Hnl Hf. rewrite wrapper_not_live, execute_spec by done. rewrite Hf. cbn.
  eexists. split; [reflexivity |]. cbn. rewrite lookup_delete_eq.
  split; [done |]. split; [done |]. split; [done |]. split.
  - intros k Hk. by rewrite lookup_delete_ne.
  - intros st2 Hc. rewrite wrapper_absent, execute_spec by done. done.
Qed.

End Wrapper.




Lemma cache_result_failure_not_cached_witness :
  let B := counter_builtins length_hash in
  exists st',
    wrapper B (Qc_of_Z 300) broken [PyInt 1] empty_state
      = (Raise (mk_exc (Builtin RuntimeError) "boom"), st') /\
    cache st' !! cache_key B broken [PyInt 1] = None /\
    calls (wrapper B (Qc_of_Z 300) broken [PyInt 1] st').2 = 2%nat.
Proof.
  intros B.
  destruct (cache_result_failure_not_cached B (Qc_of_Z 300) broken [PyInt 1]
              empty_state (mk_exc (Builtin RuntimeError) "boom") (1%nat, 0))
    as (st' & Hcall & Hnone & Hcalls & _ & _ & Hnext).
  - intros (r & ts & Hc & _). vm_compute in Hc. discriminate.
  - reflexivity.
  - exists st'. split; [exact Hcall |]. split; [exact Hnone |].
    destruct (Hnext st' eq_refl) as [_ ->]. by rewrite Hcalls.
Defined.

(** The example of the specification: with a TTL of one second, a
    function that increments a counter gives 1, then 1 again at once, then
    2 after two seconds. *)
Example cache_result_counter_example :
  map (fun c => c.1.2)
    (run (counter_builtins length_hash) (Qc_of_Z 1) increment
       [(id, [PyInt 1]); (id, [PyInt 1]); (time_sleep 2, [PyInt 1])]
       empty_state)
  = [Return 1%nat; Return 1%nat; Return 2%nat].
Proof. vm_compute. reflexivity. Qed.

End CacheProps.

Module EnvProps.
Import Env.

Lemma configuration_error_class :
  issubclass ConfigurationError ValidationError = false /\
  issubclass ValidationError ConfigurationError = false /\
  issubclass ConfigurationError PlasmaEngineError = true /\
  issubclass ValidationError PlasmaEngineError = true.
Proof. repeat split. Qed.

Lemma os_getenv_None environ key default :
  os_getenv environ key default = None <-> environ !! key = None /\ default = None.
Proof.
  unfold os_getenv. destruct (environ !! key); [| tauto].
  split; [discriminate | intros [? _]; discriminate].
Qed.

(** C7: with [required=True] the call raises the [ConfigurationError] of
    the required check exactly when the variable is unset and the default
    is [None]; when a value is resolved, [required] changes nothing (the
    check does not raise), and without [required] an absent value gives
    [None].  [ConfigurationError] and [ValidationError] are sibling classes:
    neither is a subclass of the other. *)
Theorem get_env_var_required M environ key default cast_type :
  let missing :=
    mk_exc ConfigurationError
      ("Required environment variable '" +:+ key +:+ "' not set") in
  (get_env_var M environ key default true cast_type
     <> get_env_var M environ key default false cast_type
   <-> environ !! key = None /\ default = None) /\
  (environ !! key = None /\ default = None ->
     get_env_var M environ key default true cast_type = Raise missing /\
     get_env_var M environ key default false cast_type = Return VNone) /\
  isinstance missing ConfigurationError = true /\
  isinstance missing ValidationError = false /\
  issubclass ValidationError ConfigurationError = false.
Proof.
  cbv zeta. rewrite <- os_getenv_None. unfold get_env_var.
  destruct (os_getenv environ key default) as [v|] eqn:Hv; cbn.
  - split; [| done]. split; [intros H; by destruct H | discriminate].
  - split; [| done]. split; [done | discriminate].
Qed.

End EnvProps.

Module DictsProps.
Import Dicts.

Section Merge.
Context {A : Type}.
Implicit Types (d result items : list (string * value A)) (key : string).

Lemma dict_get_set_eq {V} (d : list (string * V)) key v :
  dict_get (dict_set d key v) key = Some v.
Proof.
  induction d as [|[k v0] d IH]; cbn; [by rewrite decide_True |].
  destruct (decide (k = key)) as [->|Hne]; cbn.
  - by rewrite decide_True.
  - by rewrite decide_False.
Qed.

Lemma dict_get_set_ne {V} (d : list (string * V)) key key' v :
  key <> key' -> dict_get (dict_set d key v) key' = dict_get d key'.
Proof.
  intros Hne. induction d as [|[k v0] d IH]; cbn; [by rewrite decide_False |].
  destruct (decide (k = key)) as [->|Hk]; cbn.
  - by rewrite !decide_False.
  - by rewrite IH.
Qed.

Lemma dict_get_None {V} (d : list (string * V)) key :
  dict_get d key = None <-> key ∉ keys d.
Proof.
  induction d as [|[k v0] d IH]; cbn.
  - split; [intros _; apply not_elem_of_nil | done].
  - rewrite not_elem_of_cons. destruct (decide (k = key)) as [->|Hk].
    + split; [discriminate | intros [? _]; done].
    + rewrite IH. split; [intros ?; split; [done | done] | intros [_ ?]; done].
Qed.

Lemma dict_get_is_Some {V} (d : list (string * V)) key :
  is_Some (dict_get d key) <-> key ∈ keys d.
Proof.
  rewrite <- not_eq_None_Some, dict_get_None.
  destruct (decide (key ∈ keys d)); tauto.
Qed.

(** The loop written inside [merged_value] is [merge_items]. *)
Lemma merged_value_dicts d1 d2 :
  merged_value (Some (Dict d1)) (Dict d2) = Dict (deep_merge d1 d2).
Proof.
  cbn. f_equal. unfold deep_merge. revert d1.
  induction d2 as [|[k v] d2 IH]; intros d1; [done |]. cbn. apply IH.
Qed.

Lemma merge_items_get items : forall result key,
  NoDup (keys items) ->
  dict_get (merge_items result items) key =
    match dict_get items key with
    | Some v2 => Some (merged_value (dict_get result key) v2)
    | None => dict_get result key
    end.
Proof.
  induction items as [|[k v] items IH]; intros result key Hnd; [done |].
  cbn in Hnd. apply list.NoDup_cons in Hnd as [Hk Hnd]. cbn. rewrite IH by done.
  destruct (decide (k = key)) as [->|Hne].
  - apply dict_get_None in Hk. rewrite Hk. apply dict_get_set_eq.
  - by rewrite dict_get_set_ne.
Qed.

(** C9: for dictionaries (no key twice in [dict2]), the keys of
    [deep_merge dict1 dict2] are the keys of either input, and under each
    key: the deep merge of the two values when both inputs have a
    dictionary there, the value of [dict2] when [dict2] has the key
    otherwise, and the value of [dict1] when only [dict1] has it. *)
Theorem deep_merge_spec (dict1 dict2 : list (string * value A)) (key : string) :
  NoDup (keys dict2) ->
  (key ∈ keys (deep_merge dict1 dict2) <->
     key ∈ keys dict1 \/ key ∈ keys dict2) /\
  dict_get (deep_merge dict1 dict2) key =
    match dict_get dict1 key, dict_get dict2 key with
    | Some (Dict d1), Some (Dict d2) => Some (Dict (deep_merge d1 d2))
    | _, Some v2 => Some v2
    | v1, None => v1
    end.
Proof.
  intros Hnd.
  assert (Hget : dict_get (deep_merge dict1 dict2) key =
    match dict_get dict1 key, dict_get dict2 key with
    | Some (Dict d1), Some (Dict d2) => Some (Dict (deep_merge d1 d2))
    | _, Some v2 => Some v2
    | v1, None => v1
    end).
  { unfold deep_merge at 1. rewrite merge_items_get by done.
    destruct (dict_get dict2 key) as [v2|]; [| by destruct (dict_get dict1 key) as [[]|]].
    destruct (dict_get dict1 key) as [[a|d1]|], v2 as [b|d2];
      try reflexivity. by rewrite merged_value_dicts. }
  split; [| exact Hget].
  rewrite <- !dict_get_is_Some, Hget.
  destruct (dict_get dict1 key) as [[a|d1]|], (dict_get dict2 key) as [[b|d2]|];
    rewrite ?is_Some_alt; cbn; tauto || (split; eauto; intros [[]|[]]; done).
Qed.

End Merge.

Lemma deep_merge_spec_witness :
  let dict1 := [("a", Leaf 1); ("b", Dict [("x", Leaf 1); ("y", Leaf 2)])] in
  let dict2 := [("b", Dict [("y", Leaf 3)]); ("c", Leaf 4)] in
  ("b" ∈ keys (deep_merge dict1 dict2) <->
     "b" ∈ keys dict1 \/ "b" ∈ keys dict2) /\
  dict_get (deep_merge dict1 dict2) "b" =
    Some (Dict (deep_merge [("x", Leaf 1); ("y", Leaf 2)] [("y", Leaf 3)])).
Proof.
  intros dict1 dict2. apply (deep_merge_spec dict1 dict2 "b").
  apply (bool_decide_unpack _). vm_compute. exact I.
Defined.

End DictsProps.

Module ChunksProps.
Import Chunks.

Section Chunk.
Context {A : Type}.
Implicit Types (lst : list A).

(** A slice that starts inside the list. *)
Lemma slice_from lst (i size : Z) :
  0 <= i <= Z.of_nat (length lst) -> 0 <= size ->
  slice lst i (i + size) = take (Z.to_nat size) (drop (Z.to_nat i) lst).
Proof.
  intros Hi Hsize. unfold slice, adjust_index. cbv zeta.
  destruct (Z.ltb_spec i 0); [lia |]. destruct (Z.ltb_spec (i + size) 0); [lia |].
  rewrite (Z.min_l i) by lia.
  destruct (Z.le_ge_cases (i + size) (Z.of_nat (length lst))).
  - rewrite Z.min_l by lia. f_equal. lia.
  - rewrite Z.min_r by lia. rewrite !take_ge; [done | |];
      rewrite length_drop; lia.
Qed.

(** The number of chunks. *)
Lemma range_length_chunks (n size : Z) :
  0 <= n -> 1 <= size ->
  let m := range_length 0 n size in
  0 <= m /\ (m - 1) * size < n + Z.b2z (n =? 0) /\ n <= m * size /\
  (n = 0 -> m = 0).
Proof.
  intros Hn Hsize. cbv zeta. unfold range_length.
  destruct (Z.ltb_spec 0 size); [| lia]. destruct (Z.ltb_spec 0 n).
  - destruct (Z.eqb_spec n 0); [lia |]. cbn [Z.b2z].
    pose proof (Z.mul_div_le (n - 0 - 1) size ltac:(lia)).
    pose proof (Z.mul_succ_div_gt (n - 0 - 1) size ltac:(lia)).
    pose proof (Z.div_pos (n - 0 - 1) size ltac:(lia) ltac:(lia)). nia.
  - replace n with 0 by lia. cbn. lia.
Qed.

(** [chunk_list] on the naturals. *)
Lemma chunk_list_chunks lst (chunk_size : Z) :
  1 <= chunk_size ->
  chunk_list lst chunk_size =
    Return (map (fun k => take (Z.to_nat chunk_size)
                            (drop (k * Z.to_nat chunk_size) lst))
              (seq 0 (Z.to_nat (range_length 0 (Z.of_nat (length lst))
                                  chunk_size)))).
Proof.
  intros Hsize. unfold chunk_list, range3.
  destruct (Z.eqb_spec chunk_size 0); [lia |]. f_equal.
  destruct (range_length_chunks (Z.of_nat (length lst)) chunk_size)
    as (Hm0 & Hm1 & Hm2 & Hm3); [lia | lia |].
  rewrite map_map. apply map_ext_in. intros k Hk. apply in_seq in Hk.
  assert (Z.of_nat k * chunk_size <= Z.of_nat (length lst)).
  { destruct (Z.eqb_spec (Z.of_nat (length lst)) 0); cbn [Z.b2z] in Hm1; nia. }
  rewrite slice_from by lia. do 2 f_equal. nia.
Qed.

Lemma concat_chunks (c : nat) (m : nat) : forall lst,
  (length lst <= m * c)%nat ->
  concat (map (fun k => take c (drop (k * c) lst)) (seq 0 m)) = lst.
Proof.
  induction m as [|m IH]; intros lst Hlen.
  - destruct lst; [done | cbn in Hlen; lia].
  - cbn [seq map concat]. rewrite <- seq_shift, map_map.
    assert (Hshift :
      map (fun k => take c (drop (S k * c) lst)) (seq 0 m) =
      map (fun k => take c (drop (k * c) (drop c lst))) (seq 0 m)).
    { apply map_ext. intros k. by rewrite drop_drop. }
    rewrite Hshift, IH by (rewrite length_drop; lia).
    cbn [Nat.mul drop]. apply take_drop.
Qed.

(** C10: for [chunk_size >= 1], [chunk_list] returns chunks whose
    concatenation is the list; no chunk is empty or longer than
    [chunk_size], and every chunk but the last has exactly [chunk_size]
    elements. *)
Theorem chunk_list_spec lst (chunk_size : Z) :
  1 <= chunk_size ->
  exists chunks,
    chunk_list lst chunk_size = Return chunks /\
    concat chunks = lst /\
    forall i chunk, chunks !! i = Some chunk ->
      chunk <> [] /\
      Z.of_nat (length chunk) <= chunk_size /\
      ((S i < length chunks)%nat -> Z.of_nat (length chunk) = chunk_size).
Proof.
  intros Hsize. rewrite chunk_list_chunks by done.
  destruct (range_length_chunks (Z.of_nat (length lst)) chunk_size)
    as (Hm0 & Hm1 & Hm2 & Hm3); [lia | lia |].
  set (m := Z.to_nat (range_length 0 (Z.of_nat (length lst)) chunk_size)) in *.
  set (c := Z.to_nat chunk_size).
  eexists. split; [reflexivity |]. split.
  - apply concat_chunks. subst m c. nia.
  - intros i chunk Hi. rewrite length_map, length_seq.
    change (map ?f ?l) with (f <$> l) in Hi.
    rewrite list_lookup_fmap in Hi.
    destruct (seq 0 m !! i) as [k|] eqn:Hk; [| discriminate].
    apply lookup_seq in Hk as [-> Hk]. cbn in Hi. injection Hi as <-.
    assert (Hlen : length (take c (drop (i * c) lst))
                   = Nat.min c (length lst - i * c)).
    { by rewrite length_take, length_drop. }
    assert (HiM : Z.of_nat i
                  < range_length 0 (Z.of_nat (length lst)) chunk_size)
      by (subst m; lia).
    destruct (Z.eqb_spec (Z.of_nat (length lst)) 0) as [Hz|Hz];
      [specialize (Hm3 Hz); lia |]. cbn [Z.b2z] in Hm1.
    assert (Z.of_nat i * chunk_size < Z.of_nat (length lst)) by nia.
    split; [| split].
    + intros Hnil. rewrite Hnil in Hlen. cbn in Hlen. subst c. nia.
    + rewrite Hlen. subst c. lia.
    + intros Hnext. rewrite Hlen.
      assert (Z.of_nat i + 1
              <= range_length 0 (Z.of_nat (length lst)) chunk_size - 1)
        by (subst m; lia).
      assert ((Z.of_nat i + 1) * chunk_size <= Z.of_nat (length lst)) by nia.
      subst c. nia.
Qed.

End Chunk.

Lemma chunk_list_spec_witness :
  exists chunks,
    chunk_list [1; 2; 3; 4; 5; 6; 7] 3 = Return chunks /\
    concat chunks = [1; 2; 3; 4; 5; 6; 7] /\
    forall i chunk, chunks !! i = Some chunk ->
      chunk <> [] /\
      Z.of_nat (length chunk) <= 3 /\
      ((S i < length chunks)%nat -> Z.of_nat (length chunk) = 3).
Proof. apply (chunk_list_spec [1; 2; 3; 4; 5; 6; 7] 3). lia. Defined.

End ChunksProps.

Module RetryRunProps.
Import Retry RetryLatency Fixtures MoreFixtures.

Section Runs.
Context {Num W A : Type}.
Variable P : numbers Num.
Variables (max_attempts : Z) (delay backoff : Num).
Variable func : W -> outcome A * W.
Variable sleep : Num -> W -> outcome unit * W.

(** X1: with [max_attempts <= 0] the loop body never runs: the operation
    is not invoked, nothing is awaited, and [raise last_exception] with
    [last_exception = None] is a [TypeError]. *)
Theorem retry_async_no_attempts (w : W) :
  max_attempts <= 0 ->
  retry_async P max_attempts delay backoff func sleep w =
    (Raise (mk_exc (Builtin TypeError)
              "exceptions must derive from BaseException"), w, []).
Proof.
  intros HN. unfold retry_async, range.
  by replace (Z.to_nat max_attempts) with 0%nat by lia.
Qed.

(** X2: every run with [max_attempts >= 1] is made of [k < max_attempts]
    invocations that raised instances of [Exception], each followed by the
    suspension for [delay * (backoff ** j)], which completed, and of
    invocation [k]; invocation [j] takes place in [world_at w j].  The run
    ends in one of three ways: with the outcome of invocation [k], when it
    is not a caught failure or [k] is the last attempt; with the exception
    of [delay * (backoff ** k)]; or, after asking for that suspension, with
    the exception it raised. *)
Theorem retry_async_run_shape (w : W) :
  1 <= max_attempts ->
  let r := (retry_async P max_attempts delay backoff func sleep w).1.1 in
  let w' := (retry_async P max_attempts delay backoff func sleep w).1.2 in
  let tr := (retry_async P max_attempts delay backoff func sleep w).2 in
  exists k wk,
    Z.of_nat k < max_attempts /\
    world_at P delay backoff func sleep w k = Some wk /\
    (forall j, (j < k)%nat ->
       exists wj dj,
         world_at P delay backoff func sleep w j = Some wj /\
         caught (func wj).1 = true /\
         backoff_delay P delay backoff (Z.of_nat j) = Return dj /\
         tr !! (2 * j)%nat = Some (Invoke (func wj).1) /\
         tr !! (2 * j + 1)%nat = Some (Sleep dj)) /\
    tr !! (2 * k)%nat = Some (Invoke (func wk).1) /\
    ((length tr = (2 * k + 1)%nat /\ r = (func wk).1 /\ w' = (func wk).2 /\
      (caught (func wk).1 = false \/ Z.of_nat k = max_attempts - 1)) \/
     (length tr = (2 * k + 1)%nat /\ w' = (func wk).2 /\
      caught (func wk).1 = true /\ Z.of_nat k < max_attempts - 1 /\
      exists e', backoff_delay P delay backoff (Z.of_nat k) = Raise e' /\
                 r = Raise e') \/
     (length tr = (2 * k + 2)%nat /\
      caught (func wk).1 = true /\ Z.of_nat k < max_attempts - 1 /\
      exists d e', backoff_delay P delay backoff (Z.of_nat k) = Return d /\
                   tr !! (2 * k + 1)%nat = Some (Sleep d) /\
                   sleep d (func wk).2 = (Raise e', w') /\ r = Raise e')).
Proof.
  intros HN. cbv zeta. unfold retry_async, world_at.
  rewrite RetryProps.range_attempts.
  destruct (Z.to_nat max_attempts) as [|n] eqn:Hn; [lia |].
  pose proof (RetryProps.loop_shape P max_attempts delay backoff func sleep
                n 0 None w ltac:(lia)) as Hshape. cbv zeta in Hshape.
  destruct Hshape as (k & wk & Hk & Hwk & Hpre & Hinv & Hend).
  exists k, wk. split; [lia |]. split; [done |]. split; [exact Hpre |].
  split; [done |]. cbn [Nat.add] in Hend.
  destruct Hend as [(Hl & Hr & Hw & Hf)|[(Hl & Hw & Hck & Hkn & He)
                   |(Hl & Hck & Hkn & Hd)]].
  - left. split; [done |]. split; [done |]. split; [done |].
    destruct Hf; [by left | right; lia].
  - right. left. split; [done |]. split; [done |]. split; [done |].
    split; [lia | done].
  - right. right. split; [done |]. split; [done |]. split; [lia | done].
Qed.

(** X3: when the first [k-1] invocations raise instances of [Exception],
    each followed by a delay that is computed and a suspension that
    completes, and the [k]-th raises an exception [e] that is not one, with
    [1 <= k <= max_attempts], the wrapper raises [e] after exactly [k]
    invocations and [k-1] suspensions: the attempts that are left are not
    used. *)
Theorem retry_async_propagates_uncaught (k : nat) (e : exc) (w wk : W) :
  (1 <= k)%nat ->
  Z.of_nat k <= max_attempts ->
  (forall j, (j < k - 1)%nat -> exists wj e',
      world_at P delay backoff func sleep w j = Some wj /\
      (func wj).1 = Raise e' /\
      isinstance e' (Builtin Exception) = true) ->
  world_at P delay backoff func sleep w (k - 1) = Some wk ->
  (func wk).1 = Raise e ->
  isinstance e (Builtin Exception) = false ->
  exists tr,
    retry_async P max_attempts delay backoff func sleep w
      = (Raise e, (func wk).2, tr) /\
    length (invocations tr) = k /\
    length (sleeps tr) = (k - 1)%nat /\
    (forall j, (j < k)%nat ->
       exists wj, world_at P delay backoff func sleep w j = Some wj /\
                  invocations tr !! j = Some (func wj).1).
Proof.
  intros Hk HN Hfail Hwk Hraise He. unfold retry_async, world_at in *.
  rewrite RetryProps.range_attempts.
  destruct (Z.to_nat max_attempts) as [|n] eqn:Hn; [lia |].
  destruct (RetryProps.loop_reaches P max_attempts delay backoff func sleep
              (k - 1) 0 n None w wk)
    as (tr & Hrun & Hinv & Hsl & Hi & _); [lia | lia | | done | | ].
  { intros j Hj. destruct (Hfail j Hj) as (wj & e' & Hwj & He' & Hie).
    exists wj. split; [done |]. apply RetryProps.caught_true. by exists e'. }
  { left. by rewrite Hraise. }
  exists tr. split; [by rewrite Hrun, Hraise |]. split; [lia |].
  split; [done |]. intros j Hj. apply Hi. lia.
Qed.

End Runs.

(** The sum of a geometric progression. *)
Lemma geometric_sum (d b : Qc) (n : nat) :
  ((b - 1) * foldr Qcplus 0 (map (fun j => d * b ^ j) (seq 0 n))
   = d * (b ^ n - 1))%Qc.
Proof.
  induction n as [|n IH]; [cbn; ring |].
  rewrite seq_S, map_app, foldr_app. cbn [map foldr Nat.add].
  assert (Hacc : forall (l : list Qc) (x : Qc),
            (foldr Qcplus (x + 0) l = foldr Qcplus 0 l + x)%Qc).
  { induction l as [|y l IHl]; intros x; cbn; [ring |]. rewrite IHl. ring. }
  rewrite Hacc. rewrite Qcmult_plus_distr_r, IH. cbn [Qcpower]. ring.
Qed.

(** X4: for numbers computed exactly, when every invocation raises an
    instance of [Exception] and every suspension completes, a call with
    [max_attempts >= 1] reaches the world of the last attempt through
    [max_attempts - 1] suspensions, for [delay], [delay * backoff], ...,
    and the time it asks to be suspended for is the sum of that geometric
    progression:
    [(backoff - 1) * total = delay * (backoff ^ (max_attempts - 1) - 1)]. *)
Theorem retry_async_total_sleep {W A : Type} (max_attempts : Z)
    (delay backoff : Qc) (func : W -> outcome A * W)
    (sleep : Qc -> W -> outcome unit * W) (w : W) :
  1 <= max_attempts ->
  (forall w, exists e, (func w).1 = Raise e /\
                       isinstance e (Builtin Exception) = true) ->
  is_Some (world_at exact_numbers delay backoff func sleep w
             (Z.to_nat max_attempts - 1)) ->
  exists wl tr,
    world_at exact_numbers delay backoff func sleep w
      (Z.to_nat max_attempts - 1) = Some wl /\
    retry_async exact_numbers max_attempts delay backoff func sleep w
      = ((func wl).1, (func wl).2, tr) /\
    sleeps tr = map (fun j => (delay * backoff ^ j)%Qc)
                  (seq 0 (Z.to_nat max_attempts - 1)) /\
    ((backoff - 1) * total_sleep tr
     = delay * (backoff ^ (Z.to_nat max_attempts - 1) - 1))%Qc.
Proof.
  intros HN Hfail [wl Hwl]. unfold retry_async, world_at in *.
  rewrite RetryProps.range_attempts.
  destruct (Z.to_nat max_attempts) as [|n] eqn:Hn; [lia |].
  replace (S n - 1)%nat with n in * by lia.
  destruct (RetryProps.loop_reaches exact_numbers max_attempts delay backoff
              func sleep n 0 n None w wl)
    as (tr & Hrun & _ & Hlen & _ & Hs); [lia | lia | | done | by right |].
  { intros j Hj.
    destruct (RetryProps.world_from_le exact_numbers delay backoff func sleep
                n 0 w j) as [wj Hwj]; [lia | done |].
    exists wj. split; [done |]. by apply RetryProps.caught_true. }
  assert (Hsl : sleeps tr = map (fun j => (delay * backoff ^ j)%Qc) (seq 0 n)).
  { apply list_eq. intros j. change (map ?f ?l) with (f <$> l).
    rewrite list_lookup_fmap. destruct (decide (j < n)%nat) as [Hj|Hj].
    - destruct (Hs j Hj) as (dj & Hdj & ->). cbn [Nat.add] in Hdj.
      rewrite RetryProps.backoff_delay_exact in Hdj. injection Hdj as <-.
      by rewrite lookup_seq_lt.
    - rewrite lookup_ge_None_2 by lia. by rewrite lookup_seq_ge by lia. }
  exists wl, tr. split; [done |]. split; [done |]. split; [done |].
  unfold total_sleep. rewrite Hsl. apply geometric_sum.
Qed.

Lemma retry_async_no_attempts_witness :
  retry_async exact_numbers 0 1%Qc (Q2Qc 2) always_value_error
    no_sleep_effect 0%nat =
    (Raise (mk_exc (Builtin TypeError)
              "exceptions must derive from BaseException"), 0%nat, []).
Proof.
  apply (retry_async_no_attempts exact_numbers 0 1%Qc (Q2Qc 2)
           always_value_error no_sleep_effect 0%nat). lia.
Defined.

Lemma retry_async_run_shape_witness :
  let run := retry_async exact_numbers 3 (Q2Qc (1 # 100)) (Q2Qc 2)
               fails_twice no_sleep_effect 0%nat in
  exists k wk,
    Z.of_nat k < 3 /\
    world_at exact_numbers (Q2Qc (1 # 100)) (Q2Qc 2) fails_twice
      no_sleep_effect 0%nat k = Some wk /\
    run.2 !! (2 * k)%nat = Some (Invoke (fails_twice wk).1).
Proof.
  intros run.
  destruct (retry_async_run_shape exact_numbers 3 (Q2Qc (1 # 100)) (Q2Qc 2)
              fails_twice no_sleep_effect 0%nat ltac:(lia))
    as (k & wk & Hk & Hwk & _ & Hinv & _).
  by exists k, wk.
Defined.

Lemma retry_async_propagates_uncaught_witness :
  exists tr,
    retry_async exact_numbers 3 1%Qc (Q2Qc 2) interrupted_after_one
      no_sleep_effect 0%nat =
      (Raise (mk_exc (Builtin KeyboardInterrupt) ""), 2%nat, tr) /\
    length (invocations tr) = 2%nat /\ length (sleeps tr) = 1%nat.
Proof.
  destruct (retry_async_propagates_uncaught exact_numbers 3 1%Qc (Q2Qc 2)
              interrupted_after_one no_sleep_effect 2
              (mk_exc (Builtin KeyboardInterrupt) "") 0%nat 1%nat)
    as (tr & Hrun & Hinv & Hsl & _);
    [lia | lia | | reflexivity | reflexivity | reflexivity |].
  - intros [|j] Hj; [| lia]. exists 0%nat. by eexists.
  - by exists tr.
Defined.

Lemma retry_async_total_sleep_witness :
  let d := Q2Qc (1 # 100) in
  let b := Q2Qc 2 in
  exists tr,
    retry_async exact_numbers 3 d b always_value_error no_sleep_effect 0%nat
      = ((always_value_error 2).1, 3%nat, tr) /\
    sleeps tr = [(d * b ^ 0)%Qc; (d * b ^ 1)%Qc] /\
    ((b - 1) * total_sleep tr = d * (b ^ 2 - 1))%Qc.
Proof.
  intros d b.
  destruct (retry_async_total_sleep 3 d b always_value_error no_sleep_effect
              0%nat) as (wl & tr & Hwl & Hrun & Hsl & Hsum).
  - lia.
  - intros n. by eexists.
  - by eexists.
  - injection Hwl as <-. by exists tr.
Defined.

End RetryRunProps.

Module DedupProps.
Import Dedup.

Section Keyed.
Context {A K : Type} {EqA : EqDecision A} {CntA : Countable A}
        {EqK : EqDecision K} {CntK : Countable K}.
Implicit Types (lst result : list A) (key : A -> K) (seen : gset K).

(** What the loop adds to [result]: the items whose key is neither in
    [seen] nor carried by an earlier item. *)
Lemma keyed_loop_cons key x lst seen result :
  keyed_loop key (x :: lst) seen result =
    if decide (key x ∈ seen) then keyed_loop key lst seen result
    else keyed_loop key lst ({[key x]} ∪ seen) (result ++ [x]).
Proof. reflexivity. Qed.

Lemma keyed_loop_result key lst : forall seen result,
  keyed_loop key lst seen result = result ++ keyed_loop key lst seen [].
Proof.
  induction lst as [|x lst IH]; intros seen result; cbn.
  - by rewrite app_nil_r.
  - destruct (decide (key x ∈ seen)); [apply IH |].
    rewrite (IH _ (result ++ [x])), (IH _ [x]). by rewrite <- app_assoc.
Qed.

Lemma keyed_loop_seen key lst : forall seen k,
  keyed_loop key lst ({[k]} ∪ seen) [] =
    filter (fun y => key y <> k) (keyed_loop key lst seen []).
Proof.
  induction lst as [|x lst IH]; intros seen k; cbn; [done |].
  destruct (decide (key x ∈ seen)) as [Hin|Hin].
  - rewrite decide_True by (apply elem_of_union; by right). apply IH.
  - destruct (decide (key x = k)) as [<-|Hne].
    + rewrite decide_True by (apply elem_of_union; left; by apply elem_of_singleton).
      rewrite (keyed_loop_result _ _ _ [x]). cbn [app].
      rewrite filter_cons_False by (intros Hx; by apply Hx).
      rewrite IH. symmetry. apply list_filter_filter_l. done.
    + rewrite decide_False
        by (intros [Hk%elem_of_singleton|Hk]%elem_of_union; done).
      rewrite !(keyed_loop_result _ _ _ [x]). cbn [app].
      rewrite filter_cons_True by done. f_equal.
      replace ({[key x]} ∪ ({[k]} ∪ seen)) with ({[k]} ∪ ({[key x]} ∪ seen))
        by (by rewrite !(assoc_L (∪)), (comm_L (∪) {[k]})).
      apply IH.
Qed.

Lemma remove_duplicates_cons_keyed key x lst :
  keyed_loop key (x :: lst) ∅ [] =
    x :: filter (fun y => key y <> key x) (keyed_loop key lst ∅ []).
Proof.
  rewrite keyed_loop_cons, decide_False by apply not_elem_of_empty.
  rewrite keyed_loop_result, keyed_loop_seen. done.
Qed.

(** X5: with a key function, the items kept have pairwise distinct keys,
    they are a sublist of the input (the order is kept), and every key of
    the input is the key of an item kept. *)
Theorem remove_duplicates_keys lst key :
  NoDup (key <$> remove_duplicates lst (Some key)) /\
  remove_duplicates lst (Some key) `sublist_of` lst /\
  forall x, x ∈ lst -> key x ∈ key <$> remove_duplicates lst (Some key).
Proof.
  unfold remove_duplicates. induction lst as [|x lst (IHnd & IHsub & IHin)].
  - cbn. split; [constructor |]. split; [constructor |].
    intros x Hx. by apply elem_of_nil in Hx.
  - rewrite remove_duplicates_cons_keyed.
    set (r := keyed_loop key lst ∅ []) in *.
    assert (Hfsub : filter (fun y => key y <> key x) r `sublist_of` r)
      by apply sublist_filter.
    split; [| split].
    + rewrite fmap_cons. apply list.NoDup_cons. split.
      * intros Hin. apply list_elem_of_fmap in Hin as (y & Hy & Hin).
        apply list_elem_of_filter in Hin as [Hne _]. by apply Hne.
      * eapply sublist_NoDup; [exact IHnd |]. by apply fmap_sublist.
    + apply sublist_skip. by etrans.
    + intros y Hy. rewrite fmap_cons.
      destruct (decide (key y = key x)) as [->|Hne]; [apply list_elem_of_here |].
      apply list_elem_of_further. apply elem_of_cons in Hy as [->|Hy]; [done |].
      apply IHin in Hy. apply list_elem_of_fmap in Hy as (z & Hz & Hin).
      apply list_elem_of_fmap. exists z. split; [done |].
      apply list_elem_of_filter. split; [congruence | done].
Qed.

(** X6: the first item with a given key is the one kept: the result for
    [x :: lst] is [x] followed by the result for [lst] without the items
    that have the key of [x]. *)
Theorem remove_duplicates_first_wins x lst key :
  remove_duplicates (x :: lst) (Some key) =
    x :: filter (fun y => key y <> key x) (remove_duplicates lst (Some key)).
Proof.
  unfold remove_duplicates.
  rewrite keyed_loop_cons, decide_False by apply not_elem_of_empty.
  by rewrite keyed_loop_result, keyed_loop_seen.
Qed.

Lemma filter_all (P : A -> Prop) `{!forall x, Decision (P x)} lst :
  Forall P lst -> filter P lst = lst.
Proof.
  induction 1 as [|x l Hx _ IH]; [done |]. by rewrite filter_cons_True, IH.
Qed.

Lemma remove_duplicates_distinct lst key :
  NoDup (key <$> lst) -> remove_duplicates lst (Some key) = lst.
Proof.
  unfold remove_duplicates. induction lst as [|x lst IH]; [done |].
  rewrite fmap_cons. intros Hnd. apply list.NoDup_cons in Hnd as [Hx Hnd].
  rewrite remove_duplicates_cons_keyed, IH by done. f_equal.
  apply filter_all, list.Forall_forall. intros y Hy Heq. apply Hx.
  rewrite <- Heq. apply list_elem_of_fmap. by exists y.
Qed.

End Keyed.

Section Unkeyed.
Context {A : Type} {EqA : EqDecision A} {CntA : Countable A}.

Lemma unseen_keyed (lst : list A) : forall seen : gset A,
  unseen lst seen = keyed_loop id lst seen [].
Proof.
  induction lst as [|x lst IH]; intros seen; [done |].
  rewrite keyed_loop_cons. cbn [unseen]. unfold id at 1 2 3.
  destruct (decide (x ∈ seen)); [apply IH |].
  by rewrite keyed_loop_result, <- IH.
Qed.

(** X7: without a key function the items themselves are the keys; a list
    whose keys are pairwise distinct comes back unchanged, so removing
    duplicates twice is the same as removing them once. *)
Theorem remove_duplicates_idempotent {K : Type} {EqK : EqDecision K}
    {CntK : Countable K} (lst : list A) (key : A -> K) :
  remove_duplicates (K := K) lst None = remove_duplicates lst (Some id) /\
  (NoDup (key <$> lst) -> remove_duplicates lst (Some key) = lst) /\
  remove_duplicates (remove_duplicates lst (Some key)) (Some key)
    = remove_duplicates lst (Some key) /\
  remove_duplicates (K := K) (remove_duplicates (K := K) lst None) None
    = remove_duplicates (K := K) lst None.
Proof.
  assert (Hnone : forall l : list A,
            remove_duplicates (K := K) l None = remove_duplicates l (Some id)).
  { intros l. unfold remove_duplicates. apply unseen_keyed. }
  split; [apply Hnone |]. split; [apply remove_duplicates_distinct |]. split.
  - apply remove_duplicates_distinct, remove_duplicates_keys.
  - rewrite !Hnone. apply remove_duplicates_distinct.
    apply (remove_duplicates_keys (K := A)).
Qed.

End Unkeyed.


End DedupProps.

Module FlattenProps.
Import Dicts Flatten.

Section Flat.
Context {A : Type}.


Lemma dict_set_keys {V} (d : list (string * V)) key v :
  keys (dict_set d key v) =
    if decide (key ∈ keys d) then keys d else keys d ++ [key].
Proof.
  unfold keys. induction d as [|[k v0] d IH]; cbn [dict_set].
  - cbn. rewrite decide_False; [done | apply not_elem_of_nil].
  - destruct (decide (k = key)) as [->|Hne]; cbn [map fst].
    + rewrite decide_True; [done | apply list_elem_of_here].
    + rewrite IH. destruct (decide (key ∈ map fst d)) as [Hin|Hin].
      * rewrite decide_True; [done | by apply list_elem_of_further].
      * rewrite decide_False; [done |].
        intros [?|?]%elem_of_cons; [congruence | done].
Qed.

Lemma dict_set_NoDup {V} (d : list (string * V)) key v :
  NoDup (keys d) -> NoDup (keys (dict_set d key v)).
Proof.
  intros Hnd. rewrite dict_set_keys. destruct (decide (key ∈ keys d)); [done |].
  apply list.NoDup_app. split; [done |]. split; [| apply list.NoDup_singleton].
  intros x Hx ->%list_elem_of_singleton. done.
Qed.

Lemma dict_set_elem_of {V} (d : list (string * V)) key v kv :
  kv ∈ dict_set d key v -> kv = (key, v) \/ kv ∈ d.
Proof.
  induction d as [|[k v0] d IH]; cbn.
  - intros ->%list_elem_of_singleton. by left.
  - destruct (decide (k = key)) as [->|Hne].
    + intros [->|Hin]%elem_of_cons; [by left | right; by apply list_elem_of_further].
    + intros [->|Hin]%elem_of_cons; [right; apply list_elem_of_here |].
      destruct (IH Hin) as [->|Hd]; [by left | right; by apply list_elem_of_further].
Qed.

(** Setting a fresh key appends. *)
Lemma dict_set_fresh {V} (d : list (string * V)) key v :
  key ∉ keys d -> dict_set d key v = d ++ [(key, v)].
Proof.
  induction d as [|[k v0] d IH]; cbn; [done |].
  intros [Hne Hin]%not_elem_of_cons.
  rewrite decide_False by done. by rewrite IH.
Qed.

Lemma fold_dict_set_NoDup {V} (items : list (string * V)) : forall d,
  NoDup (keys d) ->
  NoDup (keys (fold_left (fun d kv => dict_set d kv.1 kv.2) items d)).
Proof.
  induction items as [|[k v] items IH]; intros d Hnd; [done |].
  cbn. apply IH. by apply dict_set_NoDup.
Qed.

Lemma fold_dict_set_elem_of {V} (items : list (string * V)) : forall d kv,
  kv ∈ fold_left (fun d kv => dict_set d kv.1 kv.2) items d ->
  kv ∈ d \/ kv ∈ items.
Proof.
  induction items as [|[k v] items IH]; intros d kv Hin; [by left |].
  cbn in Hin. destruct (IH _ _ Hin) as [Hd|Hi].
  - destruct (dict_set_elem_of _ _ _ _ Hd) as [->|Hd'];
      [right; apply list_elem_of_here | by left].
  - right. by apply list_elem_of_further.
Qed.

Lemma fold_dict_set_fresh {V} (items : list (string * V)) : forall d,
  NoDup (keys d ++ keys items) ->
  fold_left (fun d kv => dict_set d kv.1 kv.2) items d = d ++ items.
Proof.
  induction items as [|[k v] items IH]; intros d Hnd; cbn.
  - by rewrite app_nil_r.
  - cbn in Hnd. rewrite dict_set_fresh.
    + rewrite IH; [by rewrite <- app_assoc |].
      unfold keys in *. rewrite fmap_app. cbn. by rewrite <- app_assoc.
    + apply list.NoDup_app in Hnd as (_ & Hdis & _). intros Hin.
      apply (Hdis k Hin). apply list_elem_of_here.
Qed.

Lemma dict_of_items_NoDup {V} (items : list (string * V)) :
  NoDup (keys (dict_of_items items)).
Proof. apply fold_dict_set_NoDup. constructor. Qed.

Lemma dict_of_items_elem_of {V} (items : list (string * V)) kv :
  kv ∈ dict_of_items items -> kv ∈ items.
Proof.
  intros Hin. destruct (fold_dict_set_elem_of _ _ _ Hin) as [Hnil|Hi]; [| done].
  by apply elem_of_nil in Hnil.
Qed.

(** A list of pairs with distinct keys is the dictionary it builds. *)
Lemma dict_of_items_distinct {V} (items : list (string * V)) :
  NoDup (keys items) -> dict_of_items items = items.
Proof. intros Hnd. unfold dict_of_items. by rewrite fold_dict_set_fresh. Qed.

(** The loop written inside [entry_items] is [collect_items]. *)
Lemma entry_items_dict separator new_key (d : list (string * value A)) :
  entry_items separator new_key (Dict d) = flatten_dict d new_key separator.
Proof.
  cbn. unfold flatten_dict. f_equal.
  induction d as [|[k v] d IH]; [done |]. cbn. by rewrite IH.
Qed.

Lemma entry_items_leaves (v : value A) : forall separator new_key,
  Forall (fun kv => is_leaf kv.2 = true) (entry_items separator new_key v).
Proof.
  induction v as [a|d IH] using value_nested_ind; intros separator new_key.
  - by repeat constructor.
  - rewrite entry_items_dict. unfold flatten_dict.
    apply list.Forall_forall. intros kv Hin%dict_of_items_elem_of.
    revert Hin. generalize new_key. 
    induction IH as [|[k v] d Hv _ IHd]; intros nk Hin; cbn in Hin.
    + by apply elem_of_nil in Hin.
    + apply elem_of_app in Hin as [Hin|Hin]; [| by eapply IHd].
      eapply list.Forall_forall in Hin; [exact Hin | apply Hv].
Qed.

Lemma collect_items_leaves (d : list (string * value A)) parent_key separator :
  Forall (fun kv => is_leaf kv.2 = true) (collect_items parent_key separator d).
Proof.
  induction d as [|[k v] d IH]; cbn; [constructor |].
  apply Forall_app. split; [apply entry_items_leaves | done].
Qed.

(** X8: the dictionary [flatten_dict] returns has no key twice and no
    dictionary among its values. *)
Theorem flatten_dict_flat (d : list (string * value A)) parent_key separator :
  NoDup (keys (flatten_dict d parent_key separator)) /\
  Forall (fun kv => is_leaf kv.2 = true) (flatten_dict d parent_key separator).
Proof.
  split; [apply dict_of_items_NoDup |].
  apply list.Forall_forall. intros kv Hin%dict_of_items_elem_of.
  eapply list.Forall_forall in Hin; [exact Hin | apply collect_items_leaves].
Qed.

Lemma join_key_inj parent_key separator :
  Inj (=) (=) (join_key parent_key separator).
Proof.
  intros k1 k2. unfold join_key. destruct (decide (parent_key = "")); [done |].
  intros Heq. apply (inj (String.app parent_key)) in Heq.
  by apply (inj (String.app separator)) in Heq.
Qed.

Lemma collect_items_app (d1 d2 : list (string * value A)) parent_key separator :
  collect_items parent_key separator (d1 ++ d2) =
    collect_items parent_key separator d1
      ++ collect_items parent_key separator d2.
Proof.
  induction d1 as [|[k v] d1 IH]; [done |]. cbn. by rewrite IH, app_assoc.
Qed.

Lemma collect_items_leaf_dict (d : list (string * value A)) parent_key separator :
  Forall (fun kv => is_leaf kv.2 = true) d ->
  collect_items parent_key separator d =
    (fun kv => (join_key parent_key separator kv.1, kv.2)) <$> d.
Proof.
  induction 1 as [|[k [a|d']] d Hleaf _ IH]; [done | | discriminate Hleaf].
  cbn. by rewrite IH.
Qed.

(** X9: a dictionary without nested dictionaries is flattened to itself
    with every key prefixed by [parent_key] and [separator] (to itself when
    [parent_key] is empty). *)
Theorem flatten_dict_of_flat (d : list (string * value A))
    parent_key separator :
  NoDup (keys d) ->
  Forall (fun kv => is_leaf kv.2 = true) d ->
  flatten_dict d parent_key separator =
    ((fun kv => (join_key parent_key separator kv.1, kv.2)) <$> d) /\
  flatten_dict d "" separator = d.
Proof.
  intros Hnd Hleaves.
  assert (Hgen : forall p, flatten_dict d p separator =
            ((fun kv => (join_key p separator kv.1, kv.2)) <$> d)).
  { intros p. unfold flatten_dict. rewrite collect_items_leaf_dict by done.
    apply dict_of_items_distinct.
    assert (Hkeys : forall l : list (string * value A),
              keys ((fun kv => (join_key p separator kv.1, kv.2)) <$> l)
              = join_key p separator <$> keys l).
    { induction l as [|[k v] l IHl]; [done |]. cbn. f_equal. exact IHl. }
    rewrite Hkeys.
    pose proof (join_key_inj p separator) as Hinj.
    by apply (NoDup_fmap_2 (join_key p separator)). }
  split; [apply Hgen |]. rewrite Hgen.
  rewrite <- (list_fmap_id d) at 2. apply list_fmap_ext.
  by intros i [k v] _.
Qed.

(** X10: flattening what [flatten_dict] returned changes nothing. *)
Theorem flatten_dict_idempotent (d : list (string * value A))
    parent_key separator separator' :
  flatten_dict (flatten_dict d parent_key separator) "" separator'
    = flatten_dict d parent_key separator.
Proof.
  destruct (flatten_dict_flat d parent_key separator) as [Hnd Hleaves].
  by apply flatten_dict_of_flat.
Qed.

(** X11: an entry whose value is an empty dictionary leaves no trace in
    the result, wherever it stands. *)
Theorem flatten_dict_drops_empty (d1 d2 : list (string * value A))
    key parent_key separator :
  flatten_dict (d1 ++ (key, Dict []) :: d2) parent_key separator
    = flatten_dict (d1 ++ d2) parent_key separator.
Proof.
  unfold flatten_dict. rewrite !collect_items_app. done.
Qed.

(** X12: a dictionary whose only entry is a nested dictionary flattens to
    the flattening of the nested one under the joined key. *)
Theorem flatten_dict_nested (d : list (string * value A))
    key parent_key separator :
  flatten_dict [(key, Dict d)] parent_key separator
    = flatten_dict d (join_key parent_key separator key) separator.
Proof.
  unfold flatten_dict at 1. cbn [collect_items].
  rewrite entry_items_dict, app_nil_r.
  apply dict_of_items_distinct, flatten_dict_flat.
Qed.

End Flat.

Lemma flatten_dict_of_flat_witness :
  let d := [("host", Leaf 1); ("port", Leaf 2)] in
  flatten_dict d "db" "." = [("db.host", Leaf 1); ("db.port", Leaf 2)] /\
  flatten_dict d "" "." = d.
Proof.
  intros d. apply (flatten_dict_of_flat d "db" ".").
  - apply (bool_decide_unpack _). vm_compute. exact I.
  - by repeat constructor.
Defined.

End FlattenProps.

Module SanitizeProps.
Import Sanitize SanitizeFixtures.

Section Sanitize.
Context {C : Type}.
Variable T : text_ops C.

Lemma lstrip_split (s : list C) :
  exists spaces, s = spaces ++ lstrip T s /\
                 Forall (fun c => isspace T c = true) spaces.
Proof.
  induction s as [|c s (sp & Hs & Hsp)]; [by exists [] |]. cbn.
  destruct (isspace T c) eqn:Hc.
  - exists (c :: sp). split; [cbn; by rewrite <- Hs | by constructor].
  - by exists [].
Qed.

Lemma lstrip_head (s : list C) c :
  head (lstrip T s) = Some c -> isspace T c = false.
Proof.
  induction s as [|c' s IH]; [done |]. cbn.
  destruct (isspace T c') eqn:Hc; [done |]. by intros [= <-].
Qed.

Lemma lstrip_length (s : list C) : (length (lstrip T s) <= length s)%nat.
Proof.
  destruct (lstrip_split s) as (sp & Hs & _). rewrite Hs at 2.
  rewrite length_app. lia.
Qed.

Lemma strip_length (s : list C) : (length (strip T s) <= length s)%nat.
Proof.
  unfold strip. rewrite length_reverse.
  etrans; [apply lstrip_length |]. rewrite length_reverse. apply lstrip_length.
Qed.

(** What [strip] returns neither starts nor ends with a space. *)
Lemma strip_ends (s : list C) c :
  head (strip T s) = Some c \/ list.last (strip T s) = Some c ->
  isspace T c = false.
Proof.
  unfold strip. intros [Hc|Hc].
  - destruct (lstrip_split (reverse (lstrip T s))) as (sp & Hs & _).
    apply (f_equal reverse) in Hs. rewrite reverse_involutive, reverse_app in Hs.
    apply (lstrip_head s). rewrite Hs.
    destruct (reverse (lstrip T (reverse (lstrip T s)))); [done | exact Hc].
  - rewrite last_reverse in Hc. by apply lstrip_head in Hc.
Qed.

(** X13: what [sanitize_string] returns neither starts nor ends with a
    space, and with [max_length >= 1] it has at most [max_length]
    characters. *)
Theorem sanitize_string_bounds value max_length allowed_chars remove_html r :
  sanitize_string T value max_length allowed_chars remove_html = Return r ->
  (forall c, head r = Some c \/ list.last r = Some c -> isspace T c = false) /\
  (forall n, max_length = Some n -> 1 <= n -> Z.of_nat (length r) <= n).
Proof.
  unfold sanitize_string. destruct value as [|c0 value].
  { intros [= <-]. split; [by intros c [?|?] | cbn; lia]. }
  set (value1 := if remove_html then _ else _).
  destruct (match allowed_chars with
            | Some (_ :: _ as pattern) => keep_allowed T pattern value1
            | _ => Return value1
            end) as [value2|e]; [| discriminate].
  intros [= <-]. split; [apply strip_ends |].
  intros n -> Hn. destruct (Z.eqb_spec n 0); [lia |]. cbn [negb andb].
  destruct (Z.ltb_spec n (Z.of_nat (length value2))).
  - assert (Hs : Chunks.slice value2 0 (0 + n)
                 = take (Z.to_nat n) (drop (Z.to_nat 0) value2))
      by (apply ChunksProps.slice_from; lia).
    rewrite Z.add_0_l in Hs. rewrite Hs. change (Z.to_nat 0) with 0%nat.
    rewrite drop_0.
    pose proof (strip_length (take (Z.to_nat n) value2)) as Hlen.
    rewrite length_take in Hlen. lia.
  - pose proof (strip_length value2). lia.
Qed.

(** X14: [max_length=0] does not truncate (it is the same as no
    [max_length]), and a negative [max_length] cuts that many characters
    off the end before the spaces are stripped. *)
Theorem sanitize_string_max_length_edges value allowed_chars remove_html :
  sanitize_string T value (Some 0) allowed_chars remove_html
    = sanitize_string T value None allowed_chars remove_html /\
  forall n, n < 0 ->
    sanitize_string T value (Some n) None false
      = Return (strip T (take (length value - Z.to_nat (- n)) value)).
Proof.
  split; [done |]. intros n Hn. unfold sanitize_string.
  destruct value as [|c0 value]; [done |].
  destruct (Z.eqb_spec n 0); [lia |].
  destruct (Z.ltb_spec n (Z.of_nat (length (c0 :: value)))); [| lia].
  cbn [negb andb]. do 2 f_equal. unfold Chunks.slice, Chunks.adjust_index.
  cbv zeta. destruct (Z.ltb_spec 0 0); [lia |]. destruct (Z.ltb_spec n 0); [| lia].
  rewrite Z.min_l by lia. cbn [Z.to_nat drop]. f_equal. lia.
Qed.

End Sanitize.

Lemma sanitize_string_bounds_witness :
  let r := [97; 98]%nat in
  (forall c, head r = Some c \/ list.last r = Some c ->
             isspace code_point_ops c = false) /\
  (forall n, Some 3 = Some n -> 1 <= n -> Z.of_nat (length r) <= n).
Proof.
  intros r.
  apply (sanitize_string_bounds code_point_ops [32; 97; 98; 99]%nat
           (Some 3) None false).
  reflexivity.
Defined.

End SanitizeProps.

Module EnvMoreProps.
Import Env.

(** X15: a default is cast exactly like a value read from the
    environment: for an unset variable with default [d] the call gives what
    it gives when the variable is set to [d]. *)
Theorem get_env_var_default_is_cast M environ key d required cast_type :
  environ !! key = None ->
  get_env_var M environ key (Some d) required cast_type =
    get_env_var M (<[key := d]> environ) key (Some d) required cast_type.
Proof.
  intros Hunset. unfold get_env_var, os_getenv.
  by rewrite Hunset, lookup_insert_eq.
Qed.

(** X16: the only exceptions [get_env_var] raises are the
    [ConfigurationError] of the required check, for a required variable
    that is unset without default, and an exception raised by a
    caller-supplied [cast_type] that is neither a [ValueError] nor a
    [TypeError]. *)
Theorem get_env_var_raises M environ key default required cast_type e :
  get_env_var M environ key default required cast_type = Raise e ->
  (required = true /\ environ !! key = None /\ default = None /\
   e = mk_exc ConfigurationError
         ("Required environment variable '" +:+ key +:+ "' not set")) \/
  (exists v target_type,
     os_getenv environ key default = Some v /\
     cast_type = Some (CastType target_type) /\
     target_type v = Raise e /\
     isinstance e (Builtin ValueError) = false /\
     isinstance e (Builtin TypeError) = false).
Proof.
  unfold get_env_var.
  destruct (os_getenv environ key default) as [v|] eqn:Hv.
  - rewrite bool_decide_eq_false_2, andb_false_r by done.
    destruct cast_type as [[| |target_type]|]; try discriminate.
    unfold safe_cast. destruct (target_type v) as [v'|e'] eqn:Ht; [discriminate |].
    destruct (isinstance e' (Builtin ValueError)) eqn:Hve; [discriminate |].
    destruct (isinstance e' (Builtin TypeError)) eqn:Hte; [discriminate |].
    intros [= <-]. right. by exists v, target_type.
  - rewrite bool_decide_eq_true_2 by done. apply EnvProps.os_getenv_None in Hv.
    destruct required; [| discriminate]. intros [= <-]. left. tauto.
Qed.

Lemma get_env_var_default_is_cast_witness :
  get_env_var {| lower := id; split := fun s _ => [s]; strip := id |}
    ∅ "DEBUG" (Some "true") false (Some CastBool)
  = get_env_var {| lower := id; split := fun s _ => [s]; strip := id |}
      (<["DEBUG" := "true"]> ∅) "DEBUG" (Some "true") false (Some CastBool).
Proof.
  apply (get_env_var_default_is_cast _ ∅ "DEBUG" "true" false (Some CastBool)).
  apply lookup_empty.
Defined.

Lemma get_env_var_raises_witness :
  (true = true /\ (∅ : gmap string string) !! "PORT" = None /\
   @None string = None /\
   mk_exc ConfigurationError "Required environment variable 'PORT' not set"
   = mk_exc ConfigurationError
       ("Required environment variable '" +:+ "PORT" +:+ "' not set")) \/
  (exists v target_type,
     os_getenv ∅ "PORT" None = Some v /\
     @None cast = Some (CastType target_type) /\
     target_type v
       = Raise (mk_exc ConfigurationError
                  "Required environment variable 'PORT' not set") /\
     isinstance (mk_exc ConfigurationError
                   "Required environment variable 'PORT' not set")
       (Builtin ValueError) = false /\
     isinstance (mk_exc ConfigurationError
                   "Required environment variable 'PORT' not set")
       (Builtin TypeError) = false).
Proof.
  apply (get_env_var_raises
           {| lower := id; split := fun s _ => [s]; strip := id |}
           ∅ "PORT" None true None).
  reflexivity.
Defined.

End EnvMoreProps.

Module DictsMoreProps.
Import Dicts DictsWf.

Section Merge.
Context {A : Type}.

Lemma dict_set_same {V} (d : list (string * V)) key (v : V) :
  dict_get d key = Some v -> dict_set d key v = d.
Proof.
  induction d as [|[k v0] d IH]; cbn; [discriminate |].
  destruct (decide (k = key)) as [->|Hne]; [by intros [= ->] |].
  intros Hget. by rewrite IH.
Qed.

Lemma dict_get_elem_of {V} (d : list (string * V)) key (v : V) :
  NoDup (keys d) -> (key, v) ∈ d -> dict_get d key = Some v.
Proof.
  induction d as [|[k v0] d IH]; cbn.
  - intros _ Hin. by apply elem_of_nil in Hin.
  - intros [Hk Hnd]%list.NoDup_cons [[= -> ->]|Hin]%elem_of_cons.
    + by rewrite decide_True.
    + rewrite decide_False; [by apply IH |]. intros ->. apply Hk.
      apply list_elem_of_fmap. by exists (key, v).
Qed.

Lemma filter_ext_in {B} (P Q : B -> Prop) `{!forall x, Decision (P x)}
    `{!forall x, Decision (Q x)} (l : list B) :
  (forall x, x ∈ l -> (P x <-> Q x)) -> filter P l = filter Q l.
Proof.
  induction l as [|x l IH]; intros Hext; [done |].
  rewrite !filter_cons, IH.
  - apply decide_ext, Hext, list_elem_of_here.
  - intros y Hy. apply Hext. by apply list_elem_of_further.
Qed.

Lemma merge_items_keys (items : list (string * value A)) : forall result,
  NoDup (keys items) ->
  keys (merge_items result items) =
    keys result ++ filter (fun k => k ∉ keys result) (keys items).
Proof.
  induction items as [|[k v] items IH]; intros result Hnd.
  - cbn. by rewrite app_nil_r.
  - cbn in Hnd. apply list.NoDup_cons in Hnd as [Hk Hnd].
    cbn [merge_items]. rewrite IH by done.
    rewrite FlattenProps.dict_set_keys. cbn [keys map fst].
    destruct (decide (k ∈ keys result)) as [Hin|Hin].
    + by rewrite filter_cons_False by (intros Hn; by apply Hn).
    + rewrite filter_cons_True by done. rewrite <- app_assoc. cbn [app].
      do 2 f_equal. apply filter_ext_in. intros x Hx.
      rewrite not_elem_of_app, list_elem_of_singleton.
      split; [tauto |]. intros Hxr. split; [done |]. intros ->. done.
Qed.

(** X17: the keys of [deep_merge dict1 dict2] are those of [dict1] in
    their order, followed by the keys only [dict2] has, in the order of
    [dict2]; when [dict1] has no key twice, neither has the result. *)
Theorem deep_merge_key_order (dict1 dict2 : list (string * value A)) :
  NoDup (keys dict2) ->
  keys (deep_merge dict1 dict2) =
    keys dict1 ++ filter (fun k => k ∉ keys dict1) (keys dict2) /\
  (NoDup (keys dict1) -> NoDup (keys (deep_merge dict1 dict2))).
Proof.
  intros Hnd. unfold deep_merge. rewrite merge_items_keys by done.
  split; [done |]. intros Hnd1. apply list.NoDup_app. split; [done |]. split.
  - intros k Hk [Hnk _]%list_elem_of_filter. done.
  - by apply list.NoDup_filter.
Qed.

Lemma merge_items_disjoint (items : list (string * value A)) : forall result,
  (forall k, k ∈ keys items -> k ∉ keys result) ->
  NoDup (keys items) ->
  merge_items result items = result ++ items.
Proof.
  induction items as [|[k v] items IH]; intros result Hdis Hnd.
  - cbn. by rewrite app_nil_r.
  - cbn in Hnd. apply list.NoDup_cons in Hnd as [Hk Hnd]. cbn [merge_items].
    assert (Hfresh : k ∉ keys result) by (apply Hdis, list_elem_of_here).
    assert (Hnone : dict_get result k = None)
      by (by apply DictsProps.dict_get_None).
    rewrite Hnone. replace (merged_value None v) with v by (by destruct v).
    rewrite FlattenProps.dict_set_fresh by done.
    rewrite IH; [by rewrite <- app_assoc | | done].
    intros k' Hk'. unfold keys. rewrite map_app. cbn.
    rewrite not_elem_of_app, list_elem_of_singleton. split.
    + apply Hdis. by apply list_elem_of_further.
    + intros ->. done.
Qed.

(** X18: merging dictionaries that share no key appends the second to the
    first; in particular merging into the empty dictionary gives the second
    dictionary back. *)
Theorem deep_merge_disjoint (dict1 dict2 : list (string * value A)) :
  NoDup (keys dict2) ->
  (forall k, k ∈ keys dict2 -> k ∉ keys dict1) ->
  deep_merge dict1 dict2 = dict1 ++ dict2.
Proof. intros Hnd Hdis. by apply merge_items_disjoint. Qed.

(** A loop over items that are already in [result], merged, changes
    nothing. *)
Lemma merge_items_absorbed (items : list (string * value A)) : forall result,
  (forall k v, (k, v) ∈ items ->
     exists v', dict_get result k = Some v' /\
                merged_value (Some v') v = v') ->
  merge_items result items = result.
Proof.
  induction items as [|[k v] items IH]; intros result Hin; [done |].
  cbn [merge_items]. destruct (Hin k v) as (v' & Hget & Hm);
    [apply list_elem_of_here |].
  rewrite Hget, Hm, dict_set_same by done. apply IH.
  intros k0 v0 Hk0. apply Hin. by apply list_elem_of_further.
Qed.

Lemma wf_dict_items (items : list (string * value A)) :
  wf (Dict items) ->
  NoDup (keys items) /\ forall k v, (k, v) ∈ items -> wf v.
Proof.
  cbn. intros [Hnd Hall]. split; [done |].
  induction items as [|[k0 v0] items IH]; intros k v Hin.
  - by apply elem_of_nil in Hin.
  - destruct Hall as [Hv0 Hall].
    apply list.NoDup_cons in Hnd as [_ Hnd].
    apply elem_of_cons in Hin as [[= -> ->]|Hin]; [done | by eapply IH].
Qed.

(** Merging [v] onto a value already merged with [v] changes nothing. *)
Lemma merged_value_absorbs (v : value A) :
  wf v -> forall old,
  merged_value (Some (merged_value old v)) v = merged_value old v.
Proof.
  induction v as [a|d2 IH] using Flatten.value_nested_ind; intros Hwf old.
  - by destruct old as [[]|].
  - apply wf_dict_items in Hwf as [Hnd Hwf].
    assert (IH' : forall k v, (k, v) ∈ d2 -> forall old,
              merged_value (Some (merged_value old v)) v = merged_value old v).
    { intros k v Hin. eapply list.Forall_forall in IH; [| exact Hin].
      apply IH. by eapply Hwf. }
    assert (Hself : merge_items d2 d2 = d2).
    { apply merge_items_absorbed. intros k v Hin. exists v.
      split; [by apply dict_get_elem_of |].
      specialize (IH' k v Hin None). by destruct v. }
    destruct old as [[a|d1]|].
    + change (merged_value (Some (Leaf a)) (Dict d2)) with (Dict d2).
      rewrite DictsProps.merged_value_dicts. unfold deep_merge. by rewrite Hself.
    + rewrite !DictsProps.merged_value_dicts. unfold deep_merge.
      f_equal. apply merge_items_absorbed. intros k v Hin.
      exists (merged_value (dict_get d1 k) v).
      rewrite DictsProps.merge_items_get by done.
      rewrite (dict_get_elem_of d2 k v) by done. split; [done | by eapply IH'].
    + change (merged_value None (Dict d2)) with (Dict d2).
      rewrite DictsProps.merged_value_dicts. unfold deep_merge. by rewrite Hself.
Qed.

(** X19: for a dictionary [dict2] as Python builds it (no key twice at any
    depth), merging [dict2] a second time changes nothing, and merging
    [dict2] into itself gives [dict2]. *)
Theorem deep_merge_absorbs (dict1 dict2 : list (string * value A)) :
  wf (Dict dict2) ->
  deep_merge (deep_merge dict1 dict2) dict2 = deep_merge dict1 dict2 /\
  deep_merge dict2 dict2 = dict2.
Proof.
  intros Hwf.
  pose proof (merged_value_absorbs (Dict dict2) Hwf (Some (Dict dict1))) as H1.
  pose proof (merged_value_absorbs (Dict dict2) Hwf None) as H2.
  rewrite !DictsProps.merged_value_dicts in H1.
  change (merged_value None (Dict dict2)) with (Dict dict2) in H2.
  rewrite DictsProps.merged_value_dicts in H2.
  split; congruence.
Qed.

End Merge.

Lemma deep_merge_key_order_witness :
  let dict1 := [("a", Leaf 1); ("b", Leaf 2)] in
  let dict2 := [("c", Leaf 3); ("a", Leaf 4)] in
  keys (deep_merge dict1 dict2) =
    keys dict1 ++ filter (fun k => k ∉ keys dict1) (keys dict2) /\
  (NoDup (keys dict1) -> NoDup (keys (deep_merge dict1 dict2))).
Proof.
  intros dict1 dict2. apply (deep_merge_key_order dict1 dict2).
  apply (bool_decide_unpack _). vm_compute. exact I.
Defined.

Lemma deep_merge_disjoint_witness :
  deep_merge [("a", Leaf 1)] [("b", Leaf 2); ("c", Dict [("x", Leaf 3)])]
  = [("a", Leaf 1)] ++ [("b", Leaf 2); ("c", Dict [("x", Leaf 3)])].
Proof.
  apply (deep_merge_disjoint [("a", Leaf 1)]
           [("b", Leaf 2); ("c", Dict [("x", Leaf 3)])]).
  - apply (bool_decide_unpack _). vm_compute. exact I.
  - intros k Hk Hin. apply list_elem_of_singleton in Hin as ->.
    apply (bool_decide_pack _) in Hk. vm_compute in Hk. exact Hk.
Defined.

Lemma deep_merge_absorbs_witness :
  let dict1 := [("a", Leaf 1); ("b", Dict [("x", Leaf 1)])] in
  let dict2 := [("b", Dict [("y", Leaf 3)]); ("c", Leaf 4)] in
  deep_merge (deep_merge dict1 dict2) dict2 = deep_merge dict1 dict2 /\
  deep_merge dict2 dict2 = dict2.
Proof.
  intros dict1 dict2. apply (deep_merge_absorbs dict1 dict2).
  cbn. repeat split; apply (bool_decide_unpack _); vm_compute; exact I.
Defined.

End DictsMoreProps.

Module ChunksMoreProps.
Import Chunks.

Section Chunk.
Context {A : Type}.

(** X20: a negative [chunk_size] gives no chunk at all, whatever the list
    (its elements are dropped without an error); [chunk_size = 0] raises
    [ValueError]. *)
Theorem chunk_list_bad_size (lst : list A) (chunk_size : Z) :
  (chunk_size < 0 -> chunk_list lst chunk_size = Return []) /\
  (chunk_size = 0 ->
     chunk_list lst chunk_size =
       Raise (mk_exc (Builtin ValueError) "range() arg 3 must not be zero")).
Proof.
  unfold chunk_list, range3, range_length. split.
  - intros Hneg. destruct (Z.eqb_spec chunk_size 0); [lia |].
    destruct (Z.ltb_spec 0 chunk_size); [lia |].
    destruct (Z.ltb_spec (Z.of_nat (length lst)) 0); [lia |]. done.
  - by intros ->.
Qed.

(** X21: for [chunk_size >= 1] there are [ceil(len(lst) / chunk_size)]
    chunks, and chunk [i] holds the elements from position
    [i * chunk_size] up to [(i + 1) * chunk_size] (or the end of the
    list). *)
Theorem chunk_list_chunks_at (lst : list A) (chunk_size : Z) :
  1 <= chunk_size ->
  exists chunks,
    chunk_list lst chunk_size = Return chunks /\
    Z.of_nat (length chunks)
      = (Z.of_nat (length lst) + chunk_size - 1) / chunk_size /\
    forall i, (i < length chunks)%nat ->
      chunks !! i = Some (take (Z.to_nat chunk_size)
                            (drop (i * Z.to_nat chunk_size) lst)).
Proof.
  intros Hsize. rewrite ChunksProps.chunk_list_chunks by done.
  eexists. split; [reflexivity |]. rewrite length_map, length_seq. split.
  - unfold range_length. destruct (Z.ltb_spec 0 chunk_size); [| lia].
    destruct (Z.ltb_spec 0 (Z.of_nat (length lst))) as [Hpos|Hpos].
    + replace (Z.of_nat (length lst) + chunk_size - 1)
        with (Z.of_nat (length lst) - 0 - 1 + 1 * chunk_size) by lia.
      rewrite Z.div_add by lia.
      pose proof (Z.div_pos (Z.of_nat (length lst) - 0 - 1) chunk_size
                    ltac:(lia) ltac:(lia)). lia.
    + replace (Z.of_nat (length lst)) with 0 by lia.
      rewrite Z.div_small by lia. done.
  - intros i Hi. change (map ?f ?l) with (f <$> l).
    rewrite list_lookup_fmap, lookup_seq_lt by done. done.
Qed.

End Chunk.

Lemma chunk_list_chunks_at_witness :
  exists chunks,
    chunk_list [1; 2; 3; 4; 5; 6; 7] 3 = Return chunks /\
    Z.of_nat (length chunks) = (Z.of_nat 7 + 3 - 1) / 3 /\
    forall i, (i < length chunks)%nat ->
      chunks !! i = Some (take (Z.to_nat 3)
                            (drop (i * Z.to_nat 3) [1; 2; 3; 4; 5; 6; 7])).
Proof. apply (chunk_list_chunks_at [1; 2; 3; 4; 5; 6; 7] 3). lia. Defined.

End ChunksMoreProps.

Module CacheMoreProps.
Import Cache.

Section Wrapper.
Context {Args Res W : Type}.
Variable B : builtins Args W.
Variable ttl_seconds : Qc.
Variable func : function Args Res W.

(** X22: with [ttl_seconds <= 0] nothing is served from the cache as
    long as the clock does not run behind the stored timestamp: the call
    invokes the function and gives its outcome. *)
Theorem cache_result_no_ttl a st :
  (ttl_seconds <= 0)%Qc ->
  (forall r ts, cache st !! cache_key B func a = Some (r, ts) ->
                (ts <= time_time B (world st))%Qc) ->
  calls (wrapper B ttl_seconds func a st).2 = S (calls st) /\
  (wrapper B ttl_seconds func a st).1 = (fn_call func a (world st)).1.
Proof.
  intros Httl Hclock.
  rewrite CacheProps.wrapper_not_live, CacheProps.execute_spec; [done |].
  intros (r & ts & Hc & Hlt). specialize (Hclock r ts Hc).
  apply Qclt_not_le in Hlt. apply Hlt.
  eapply Qcle_trans; [exact Httl |].
  apply Qcle_minus_iff in Hclock. exact Hclock.
Qed.

End Wrapper.

Lemma cache_result_no_ttl_witness :
  let B := Fixtures.counter_builtins Fixtures.length_hash in
  let st := (wrapper B 0%Qc Fixtures.increment [Fixtures.PyInt 1]
               Fixtures.empty_state).2 in
  calls (wrapper B 0%Qc Fixtures.increment [Fixtures.PyInt 1] st).2 = 2%nat /\
  (wrapper B 0%Qc Fixtures.increment [Fixtures.PyInt 1] st).1 = Return 2%nat.
Proof.
  intros B st.
  apply (cache_result_no_ttl B 0%Qc Fixtures.increment [Fixtures.PyInt 1] st).
  - discriminate.
  - intros r ts Hc. vm_compute in Hc. injection Hc as _ <-. discriminate.
Defined.

End CacheMoreProps.
